(** * Opening-tree exploration engine (OpeningAnalyze.py, chesser2.py)

    A shallow embedding of [LichessStockfishAnalyzer]: the checkpointed
    state, the popularity-oracle query, the evaluator query and the
    recursive traversal, followed by the properties of the traversal.

    Conventions.
    - The chess rules library, the HTTP service and the UCI engine are
      collaborators: they are the fields of [Collaborators], and every
      definition is parametric in them.
    - Python mutates [self] in place and an exception does not undo earlier
      mutations, so a computation is a function [Sys -> res A * Sys] that
      returns the state also when it raises.
    - Everything observable that the program does to the outside (HTTP
      request, sleep, engine call, file written, line printed) is appended to
      [log], oldest first.
    - [analyze_position_recursive] recurses as long as the oracle keeps
      answering, so it takes fuel; [OutOfFuel] is the model's own outcome and
      no Python exception. *)

From Stdlib Require Import ZArith QArith String Ascii.
From stdpp Require Import gmap strings list pretty sorting.

Local Open Scope Z_scope.

(** ** Data model *)

(** The value cached under a key of [analyzed_positions]:
    [{'uci': .., 'san': .., 'evaluation': ..}].  The evaluation is
    [score / 100] for an integer centipawn [score]; it is kept as that
    fraction. *)
Record BestReply := {
  br_uci : string;
  br_san : string;
  br_evaluation : Q
}.

(** An entry of [all_variations]. *)
Record LineRecord := {
  lr_number : Z;
  lr_moves : string;
  lr_evaluation : Q;
  lr_games : Z;
  lr_depth : nat
}.

(** The fields of [self] that the analysis reads and writes. *)
Record Analyzer := {
  min_games : Z;
  variation_counter : Z;
  all_variations : list LineRecord;
  analyzed_positions : gmap string BestReply;
  fully_explored_fens : gset string
}.

(** [__init__] *)
Definition init (min_games : Z) : Analyzer :=
  {| min_games := min_games;
     variation_counter := 0;
     all_variations := [];
     analyzed_positions := ∅;
     fully_explored_fens := ∅ |}.

(** [_cache_key]: [f"{fen}|{move_uci}"] *)
Definition _cache_key (fen move_uci : string) : string :=
  fen +:+ "|" +:+ move_uci.

(** One element of the ['moves'] array of the explorer's answer; a field is
    [None] when the object lacks the key. *)
Record move_data := {
  md_uci : option string;
  md_san : option string;
  md_white : option Z;
  md_draws : option Z;
  md_black : option Z
}.

(** What [requests.get], [raise_for_status] and [response.json()] leave:
    a [RequestException], or the decoded object with its optional ['moves']. *)
Inductive http_outcome :=
| HttpFailure
| HttpJson (moves : option (list move_data)).

(** The dictionaries [get_lichess_moves] returns. *)
Record Candidate := {
  c_uci : string;
  c_san : string;
  c_games : Z;
  c_white_wins : Z;
  c_draws : Z;
  c_black_wins : Z
}.

(** [info['score']]: a score and the side it is relative to, as
    [chess.engine.PovScore].  [relative] is already the integer
    [relative.score(mate_score=10000)], and [None] when the source's test
    [if info['score'].relative] fails. *)
Record PovScore := {
  relative : option Z;
  pov_turn : bool
}.

(** [PovScore.pov(color)] in centipawns: the score from [color]'s side. *)
Definition pov (ps : PovScore) (color : bool) : Z :=
  let r := default 0 (relative ps) in
  if Bool.eqb (pov_turn ps) color then r else - r.

(** The progress document: the four keys that [save_progress] dumps, each
    of which [load_progress] reads with [data.get(key, default)].  A key
    that is present is taken to hold a value of the type [save_progress]
    writes. *)
Record progress_doc := {
  doc_analyzed_positions : option (gmap string BestReply);
  doc_fully_explored_fens : option (list string);
  doc_variation_counter : option Z;
  doc_all_variations : option (list LineRecord)
}.

(** What [load_progress] can find under the name of the progress file. *)
Inductive file_state :=
| Unreadable                      (* exists, but [open] raises [OSError] *)
| NotJson                         (* [json.load] raises [JSONDecodeError] *)
| JsonNotObject                   (* valid JSON that is no object: [data.get] is missing *)
| JsonObject (d : progress_doc).

Inductive exn :=
| RequestException
| KeyError (key : string)
| InvalidMoveError (uci : string)
| PushError
| EngineError
| JSONDecodeError
| OSError
| AttributeError.

Inductive message :=
| NoPreviousProgress
| ResumedProgress (cached explored : nat) (variations : Z)
| CouldNotLoadProgress (e : exn)
| ErrorFetchingLichess (e : exn)
| ErrorGettingBestResponse (e : exn)
| SkippingFullyExplored (path : string)
| AnalyzingPositionAfter (path : string)
| NoMoreMoves (min_games : Z)
| FoundPopularMoves (n : nat)
| MoveCached (i n : nat) (san : string) (games : Z) (best : string) (eval : Q)
| MoveHeader (i n : nat) (san : string) (games : Z)
| ErrorMakingMove (e : exn)
| FindingBestResponse
| BestResponseIs (san : string) (eval : Q)
| SavedAs (filename : string)
| CouldNotFindBestResponse.

Inductive event :=
| HttpGet (fen : string) (top_n : Z)
| Sleep (seconds : Q)
| EnginePlay (fen : string) (depth : Z)
| EngineAnalyse (fen : string) (depth : Z)
| WriteFile (name text : string)
| JsonDump (name : string)
| Print (indent : nat) (m : message).

Inductive res (A : Type) :=
| Ret (a : A)
| Raise (e : exn)
| OutOfFuel.
Arguments Ret {A} a.
Arguments Raise {A} e.
Arguments OutOfFuel {A}.

(** The rules library, the explorer service and the engine. *)
Record Collaborators := {
  Board : Type;
  Move : Type;
  World : Type;
  (* chess.Board / chess.Move; [None] is a raised exception *)
  board_fen : Board -> string;
  turn : Board -> bool;
  from_uci : string -> option Move;
  move_uci : Move -> string;
  push : Board -> Move -> option Board;
  board_san : Board -> Move -> option string;
  (* requests.get(lichess_base_url, params) for a FEN and a move count *)
  requests_get : World -> string -> Z -> http_outcome * World;
  (* engine.play(board, Limit(depth)).move; outer [None] is an exception,
     inner [None] a result whose move is false *)
  engine_play : World -> Board -> Z -> option (option Move) * World;
  (* engine.analyse(board, Limit(depth))['score'] *)
  engine_analyse : World -> Board -> Z -> option PovScore * World;
  (* chess.pgn rendering of a line with its evaluation comment and name *)
  generate_pgn : list (Move * string) -> Q -> string -> string
}.

(** ** Pure helpers *)

(** [l[:n]] *)
Definition py_prefix {A} (n : Z) (l : list A) : list A :=
  if 0 <=? n then take (Z.to_nat n) l
  else take (length l - Z.to_nat (- n))%nat l.

Definition total_games (md : move_data) : Z :=
  default 0 (md_white md) + default 0 (md_draws md) + default 0 (md_black md).

(** The body of the loop that builds [moves] in [get_lichess_moves]. *)
Definition append_if_popular (min_games : Z) (moves : list Candidate)
    (md : move_data) : exn + list Candidate :=
  if min_games <=? total_games md then
    match md_uci md with
    | None => inl (KeyError "uci")
    | Some u =>
      match md_san md with
      | None => inl (KeyError "san")
      | Some sn =>
        inr (moves ++ [ {| c_uci := u; c_san := sn;
                           c_games := total_games md;
                           c_white_wins := default 0 (md_white md);
                           c_draws := default 0 (md_draws md);
                           c_black_wins := default 0 (md_black md) |} ])
      end
    end
  else inr moves.

Fixpoint popular_moves (min_games : Z) (moves : list Candidate)
    (data : list move_data) : exn + list Candidate :=
  match data with
  | [] => inr moves
  | md :: rest =>
    match append_if_popular min_games moves md with
    | inl e => inl e
    | inr moves' => popular_moves min_games moves' rest
    end
  end.

(** ASCII characters that [str.strip()] removes. *)
Definition is_py_space (a : ascii) : bool :=
  let n := nat_of_ascii a in
  ((9 <=? n)%nat && (n <=? 13)%nat) || ((28 <=? n)%nat && (n <=? 32)%nat).

Fixpoint lstrip (s : string) : string :=
  match s with
  | String a s' => if is_py_space a then lstrip s' else s
  | EmptyString => EmptyString
  end.

Definition strip (s : string) : string :=
  String.rev (lstrip (String.rev (lstrip s))).

(** The loop of [get_move_path_string]: [i] is the index, [move_number]
    the next move number. *)
Fixpoint move_path {MoveT} (i : nat) (move_number : Z)
    (moves : list (MoveT * string)) (path : string) : string :=
  match moves with
  | [] => path
  | (_, san) :: rest =>
    if Nat.even i
    then move_path (S i) (move_number + 1) rest
           (path +:+ pretty move_number +:+ ". " +:+ san +:+ " ")
    else move_path (S i) move_number rest (path +:+ san +:+ " ")
  end.

Definition get_move_path_string {MoveT} (moves : list (MoveT * string)) : string :=
  strip (move_path 0 1 moves "").


(** ** State, effects and control *)

Section Monad.
Context {C : Collaborators}.

(** The analyzer object, the collaborators' state, the progress files of
    the working directory, and the log of effects. *)
Record Sys := {
  self : Analyzer;
  world : World C;
  disk : gmap string file_state;
  log : list event
}.

Definition M (A : Type) : Type := Sys -> res A * Sys.

Definition ret {A} (a : A) : M A := fun s => (Ret a, s).

Definition raise {A} (e : exn) : M A := fun s => (Raise e, s).

Definition bind {A B} (m : M A) (k : A -> M B) : M B :=
  fun s =>
    match m s with
    | (Ret a, s') => k a s'
    | (Raise e, s') => (Raise e, s')
    | (OutOfFuel, s') => (OutOfFuel, s')
    end.

(** [try: body  except <caught>: handler] *)
Definition try_except {A} (body : M A) (caught : exn -> bool)
    (handler : exn -> M A) : M A :=
  fun s =>
    match body s with
    | (Raise e, s') => if caught e then handler e s' else (Raise e, s')
    | r => r
    end.

(** [try: body  finally: final] *)
Definition try_finally {A} (body : M A) (final : M unit) : M A :=
  fun s =>
    match body s with
    | (OutOfFuel, s') => (OutOfFuel, s')
    | (r, s') =>
      match final s' with
      | (Ret _, s'') => (r, s'')
      | (Raise e, s'') => (Raise e, s'')
      | (OutOfFuel, s'') => (OutOfFuel, s'')
      end
    end.

Definition append_log (evs : list event) (s : Sys) : Sys :=
  {| self := self s; world := world s; disk := disk s; log := log s ++ evs |}.

Definition set_world (w : World C) (s : Sys) : Sys :=
  {| self := self s; world := w; disk := disk s; log := log s |}.

Definition set_self (a : Analyzer) (s : Sys) : Sys :=
  {| self := a; world := world s; disk := disk s; log := log s |}.

Definition emit (e : event) : M unit :=
  fun s => (Ret tt, append_log [e] s).

Definition print (indent : nat) (m : message) : M unit := emit (Print indent m).

Definition get_self : M Analyzer := fun s => (Ret (self s), s).

Definition modify_self (f : Analyzer -> Analyzer) : M unit :=
  fun s => (Ret tt, set_self (f (self s)) s).

(** A call into the explorer service or the engine. *)
Definition call {A} (f : World C -> A * World C) : M A :=
  fun s => let (a, w) := f (world s) in (Ret a, set_world w s).

(** The value of an expression of the rules library that may raise. *)
Definition or_raise {A} (o : option A) (e : exn) : M A :=
  match o with Some a => ret a | None => raise e end.

Definition of_sum {A} (r : exn + A) : M A :=
  match r with inl e => raise e | inr a => ret a end.

End Monad.

Arguments Sys : clear implicits.
Arguments Build_Sys : clear implicits.
Arguments M : clear implicits.

Notation "x <- m ;; k" := (bind m (fun x => k))
  (at level 100, m at next level, right associativity).
Notation "m ;; k" := (bind m (fun _ => k))
  (at level 100, right associativity).

(** Field assignments on [self]. *)
Definition set_analyzed_positions (m : gmap string BestReply) (a : Analyzer) : Analyzer :=
  {| min_games := min_games a; variation_counter := variation_counter a;
     all_variations := all_variations a; analyzed_positions := m;
     fully_explored_fens := fully_explored_fens a |}.

Definition set_fully_explored_fens (x : gset string) (a : Analyzer) : Analyzer :=
  {| min_games := min_games a; variation_counter := variation_counter a;
     all_variations := all_variations a;
     analyzed_positions := analyzed_positions a; fully_explored_fens := x |}.

Definition set_variation_counter (n : Z) (a : Analyzer) : Analyzer :=
  {| min_games := min_games a; variation_counter := n;
     all_variations := all_variations a;
     analyzed_positions := analyzed_positions a;
     fully_explored_fens := fully_explored_fens a |}.

Definition set_all_variations (l : list LineRecord) (a : Analyzer) : Analyzer :=
  {| min_games := min_games a; variation_counter := variation_counter a;
     all_variations := l; analyzed_positions := analyzed_positions a;
     fully_explored_fens := fully_explored_fens a |}.

Section Engine.
Context (C : Collaborators).

(** ** Checkpoint: [save_progress] and [load_progress] *)

Definition progress_file : string := "progress.json".

(** The dictionary [data] of [save_progress]. *)
Definition snapshot (a : Analyzer) : progress_doc :=
  {| doc_analyzed_positions := Some (analyzed_positions a);
     doc_fully_explored_fens := Some (elements (fully_explored_fens a));
     doc_variation_counter := Some (variation_counter a);
     doc_all_variations := Some (all_variations a) |}.

(** [save_progress]; the write itself is taken to succeed. *)
Definition save_progress (file : string) : M C unit :=
  fun s => (Ret tt, {| self := self s; world := world s;
                       disk := <[file := JsonObject (snapshot (self s))]> (disk s);
                       log := log s ++ [JsonDump file] |}).

(** [open(progress_file, "r")] and [json.load(f)] *)
Definition read_json (file : file_state) : M C file_state :=
  match file with
  | Unreadable => raise OSError
  | NotJson => raise JSONDecodeError
  | other => ret other
  end.

(** The four assignments of [load_progress]; [data.get] does not exist on a
    value that is no dictionary. *)
Definition assign_progress (data : file_state) : M C unit :=
  match data with
  | JsonObject d =>
    modify_self (set_analyzed_positions (default ∅ (doc_analyzed_positions d))) ;;
    modify_self (set_fully_explored_fens
                   (list_to_set (default [] (doc_fully_explored_fens d)))) ;;
    modify_self (set_variation_counter (default 0 (doc_variation_counter d))) ;;
    modify_self (set_all_variations (default [] (doc_all_variations d)))
  | _ => raise AttributeError
  end.

Definition caught_by_load (e : exn) : bool :=
  match e with
  | JSONDecodeError | KeyError _ => true
  | _ => false
  end.

Definition load_progress (file : string) : M C unit :=
  fun s =>
    match disk s !! file with
    | None => print 0 NoPreviousProgress s
    | Some f =>
      try_except
        (data <- read_json f ;;
         assign_progress data ;;
         a <- get_self ;;
         print 0 (ResumedProgress (size (analyzed_positions a))
                                  (size (fully_explored_fens a))
                                  (variation_counter a)))
        caught_by_load
        (fun e => print 0 (CouldNotLoadProgress e))
        s
    end.

(** ** The popularity oracle: [get_lichess_moves] *)

Definition is_request_exception (e : exn) : bool :=
  match e with RequestException => true | _ => false end.

(** The [try] block of [get_lichess_moves], up to its [return moves]. *)
Definition fetch_moves (fen : string) (top_n : Z) : M C (list Candidate) :=
  emit (HttpGet fen top_n) ;;
  response <- call (fun w => requests_get C w fen top_n) ;;
  match response with
  | HttpFailure => raise RequestException
  | HttpJson data =>
    a <- get_self ;;
    of_sum (popular_moves (min_games a) [] (py_prefix top_n (default [] data)))
  end.

(** OpeningAnalyze.py: the rate-limiting sleep sits in a [finally]. *)
Definition get_lichess_moves (board : Board C) (top_n : Z) : M C (list Candidate) :=
  let fen := board_fen C board in
  try_finally
    (try_except
       (fetch_moves fen top_n)
       is_request_exception
       (fun e => print 0 (ErrorFetchingLichess e) ;; ret []))
    (emit (Sleep (1 # 2))).

(** ** The evaluator: [get_best_response] *)

(** The dictionary [get_best_response] returns. *)
Record Response := {
  r_move : Move C;
  r_uci : string;
  r_san : string;
  r_evaluation : Q
}.

Definition get_best_response (board : Board C) (depth : Z) : M C (option Response) :=
  try_except
    (emit (EnginePlay (board_fen C board) depth) ;;
     result <- call (fun w => engine_play C w board depth) ;;
     result <- or_raise result EngineError ;;
     match result with
     | Some mv =>
       temp_board <- or_raise (push C board mv) PushError ;;
       emit (EngineAnalyse (board_fen C temp_board) 20) ;;
       info <- call (fun w => engine_analyse C w temp_board 20) ;;
       info <- or_raise info EngineError ;;
       let score := default 0 (relative info) in
       let score := - score in
       san <- or_raise (board_san C board mv) EngineError ;;
       ret (Some {| r_move := mv; r_uci := move_uci C mv; r_san := san;
                    r_evaluation := Qmake score 100 |})
     | None => ret None
     end)
    (fun _ => true)
    (fun e => print 0 (ErrorGettingBestResponse e) ;; ret None).

(** ** The traversal: [analyze_position_recursive] *)

Definition History : Type := list (Move C * string).

(** A [for i, x in enumerate(l)] loop whose body may [continue]. *)
Fixpoint for_each {A} (body : nat -> A -> M C unit) (i : nat) (l : list A) : M C unit :=
  match l with
  | [] => ret tt
  | x :: rest => body i x ;; for_each body (S i) rest
  end.

Definition mark_fully_explored (current_fen : string) : M C unit :=
  modify_self (fun a => set_fully_explored_fens
                          ({[current_fen]} ∪ fully_explored_fens a) a).

Definition store_best_response (cache_key : string) (best_response : Response) : M C unit :=
  modify_self (fun a => set_analyzed_positions
     (<[cache_key := {| br_uci := r_uci best_response;
                        br_san := r_san best_response;
                        br_evaluation := r_evaluation best_response |}]>
        (analyzed_positions a)) a).

Definition variation_file (counter : Z) : string :=
  "variation_" +:+ pretty counter +:+ ".pgn".

(** The block "Make the popular move" of the cold path: [None] when its
    [except] branch ran, after which the loop [continue]s. *)
Definition make_popular_move (board : Board C) (move_history : History)
    (depth_level : nat) (move_data : Candidate)
    : M C (option (Board C * History)) :=
  try_except
    (move <- or_raise (from_uci C (c_uci move_data))
                      (InvalidMoveError (c_uci move_data)) ;;
     temp_board <- or_raise (push C board move) PushError ;;
     ret (Some (temp_board, move_history ++ [(move, c_san move_data)])))
    (fun _ => true)
    (fun e => print depth_level (ErrorMakingMove e) ;; ret None).

(** One iteration of the loop over [lichess_moves], for the candidate
    [move_data] at index [i] of [n]; [recurse] is the recursive call. *)
Definition process_candidate
    (recurse : Board C -> History -> nat -> M C unit)
    (board : Board C) (move_history : History) (depth_level : nat)
    (current_fen : string) (n i : nat) (move_data : Candidate) : M C unit :=
  let cache_key := _cache_key current_fen (c_uci move_data) in
  a <- get_self ;;
  match analyzed_positions a !! cache_key with
  | Some cached =>
    print depth_level (MoveCached (i + 1) n (c_san move_data) (c_games move_data)
                         (br_san cached) (br_evaluation cached)) ;;
    move <- or_raise (from_uci C (c_uci move_data))
                     (InvalidMoveError (c_uci move_data)) ;;
    temp_board <- or_raise (push C board move) PushError ;;
    let new_history := move_history ++ [(move, c_san move_data)] in
    response_move <- or_raise (from_uci C (br_uci cached))
                              (InvalidMoveError (br_uci cached)) ;;
    let complete_history := new_history ++ [(response_move, br_san cached)] in
    temp_board <- or_raise (push C temp_board response_move) PushError ;;
    recurse temp_board complete_history (S depth_level)
  | None =>
    print depth_level (MoveHeader (i + 1) n (c_san move_data) (c_games move_data)) ;;
    made <- make_popular_move board move_history depth_level move_data ;;
    match made with
    | None => ret tt
    | Some (temp_board, new_history) =>
      print depth_level FindingBestResponse ;;
      best_response <- get_best_response temp_board 40 ;;
      match best_response with
      | Some best_response =>
        print depth_level (BestResponseIs (r_san best_response)
                                          (r_evaluation best_response)) ;;
        store_best_response cache_key best_response ;;
        modify_self (fun a => set_variation_counter (variation_counter a + 1) a) ;;
        response_move <- or_raise (from_uci C (r_uci best_response))
                                  (InvalidMoveError (r_uci best_response)) ;;
        let complete_history := new_history ++ [(response_move, r_san best_response)] in
        a <- get_self ;;
        let variation_name := "Variation " +:+ pretty (variation_counter a) in
        let pgn := generate_pgn C complete_history (r_evaluation best_response)
                                variation_name in
        let filename := variation_file (variation_counter a) in
        emit (WriteFile filename pgn) ;;
        print depth_level (SavedAs filename) ;;
        modify_self (fun a => set_all_variations
           (all_variations a ++
              [ {| lr_number := variation_counter a;
                   lr_moves := get_move_path_string complete_history;
                   lr_evaluation := r_evaluation best_response;
                   lr_games := c_games move_data;
                   lr_depth := length complete_history |} ]) a) ;;
        save_progress progress_file ;;
        temp_board <- or_raise (push C temp_board response_move) PushError ;;
        recurse temp_board complete_history (S depth_level)
      | None => print depth_level CouldNotFindBestResponse
      end
    end
  end.

Fixpoint analyze_position_recursive (fuel : nat) (board : Board C)
    (move_history : History) (depth_level : nat) : M C unit :=
  match fuel with
  | O => fun s => (OutOfFuel, s)
  | S fuel' =>
    let current_path := get_move_path_string move_history in
    let current_fen := board_fen C board in
    a <- get_self ;;
    if decide (current_fen ∈ fully_explored_fens a) then
      print depth_level (SkippingFullyExplored current_path)
    else
      print depth_level (AnalyzingPositionAfter current_path) ;;
      lichess_moves <- get_lichess_moves board 5 ;;
      match lichess_moves with
      | [] =>
        print depth_level (NoMoreMoves (min_games a)) ;;
        mark_fully_explored current_fen ;;
        save_progress progress_file
      | _ =>
        print depth_level (FoundPopularMoves (length lichess_moves)) ;;
        for_each (process_candidate (analyze_position_recursive fuel')
                    board move_history depth_level current_fen
                    (length lichess_moves))
                 0%nat lichess_moves ;;
        mark_fully_explored current_fen ;;
        save_progress progress_file
      end
  end.

(** The end of [analyze_position], once the opening line has been parsed
    into [board] and [move_history]: load the checkpoint, then explore. *)
Definition analyze_position_from (fuel : nat) (board : Board C)
    (move_history : History) : M C unit :=
  load_progress progress_file ;;
  analyze_position_recursive fuel board move_history 0.

End Engine.

Arguments r_move {C} _.
Arguments r_uci {C} _.
Arguments r_san {C} _.
Arguments r_evaluation {C} _.

(** ** chesser2.py: the earlier [get_lichess_moves] *)

Module Chesser2.
Section Oracle.
Context (C : Collaborators).

(** How a block of statements ends: with a [return], or by reaching its
    last statement. *)
Inductive flow (A : Type) :=
| Returned (a : A)
| FellThrough.
Arguments Returned {A} a.
Arguments FellThrough {A}.

(** The [try] statement of chesser2.py's [get_lichess_moves]: both the
    [try] block and the handler end in a [return]. *)
Definition try_statement (fen : string) (top_n : Z) : M C (flow (list Candidate)) :=
  try_except
    (moves <- fetch_moves C fen top_n ;; ret (Returned moves))
    is_request_exception
    (fun e => print 0 (ErrorFetchingLichess e) ;; ret (Returned [])).

(** The sleep follows the [try] statement; a call that gets there returns
    [None]. *)
Definition get_lichess_moves (board : Board C) (top_n : Z)
    : M C (option (list Candidate)) :=
  let fen := board_fen C board in
  outcome <- try_statement fen top_n ;;
  match outcome with
  | Returned moves => ret (Some moves)
  | FellThrough => emit (Sleep (1 # 2)) ;; ret None
  end.

End Oracle.

(** The traversal of chesser2.py *)

Section Traversal.
Context (C : Collaborators).

(** One iteration of the loop of chesser2.py's [analyze_position_recursive]:
    the cold path of the later version, without cache and checkpoint. *)
Definition process_candidate
    (recurse : Board C -> History C -> nat -> M C unit)
    (board : Board C) (move_history : History C) (depth_level : nat)
    (n i : nat) (move_data : Candidate) : M C unit :=
  print depth_level (MoveHeader (i + 1) n (c_san move_data) (c_games move_data)) ;;
  made <- make_popular_move C board move_history depth_level move_data ;;
  match made with
  | None => ret tt
  | Some (temp_board, new_history) =>
    print depth_level FindingBestResponse ;;
    best_response <- get_best_response C temp_board 40 ;;
    match best_response with
    | Some best_response =>
      print depth_level (BestResponseIs (r_san best_response)
                                        (r_evaluation best_response)) ;;
      modify_self (fun a => set_variation_counter (variation_counter a + 1) a) ;;
      response_move <- or_raise (from_uci C (r_uci best_response))
                                (InvalidMoveError (r_uci best_response)) ;;
      let complete_history := new_history ++ [(response_move, r_san best_response)] in
      a <- get_self ;;
      let variation_name := "Variation " +:+ pretty (variation_counter a) in
      let pgn := generate_pgn C complete_history (r_evaluation best_response)
                              variation_name in
      let filename := variation_file (variation_counter a) in
      emit (WriteFile filename pgn) ;;
      print depth_level (SavedAs filename) ;;
      modify_self (fun a => set_all_variations
         (all_variations a ++
            [ {| lr_number := variation_counter a;
                 lr_moves := get_move_path_string complete_history;
                 lr_evaluation := r_evaluation best_response;
                 lr_games := c_games move_data;
                 lr_depth := length complete_history |} ]) a) ;;
      temp_board <- or_raise (push C temp_board response_move) PushError ;;
      recurse temp_board complete_history (S depth_level)
    | None => print depth_level CouldNotFindBestResponse
    end
  end.

(** chesser2.py's [analyze_position_recursive]; [get_lichess_moves] is the
    one of that file, whose [None] is as false as the empty list. *)
Fixpoint analyze_position_recursive (fuel : nat) (board : Board C)
    (move_history : History C) (depth_level : nat) : M C unit :=
  match fuel with
  | O => fun s => (OutOfFuel, s)
  | S fuel' =>
    let current_path := get_move_path_string move_history in
    print depth_level (AnalyzingPositionAfter current_path) ;;
    lichess_moves <- get_lichess_moves C board 10 ;;
    match lichess_moves with
    | None | Some [] =>
      a <- get_self ;;
      print depth_level (NoMoreMoves (min_games a))
    | Some lichess_moves =>
      print depth_level (FoundPopularMoves (length lichess_moves)) ;;
      for_each C (process_candidate (analyze_position_recursive fuel')
                    board move_history depth_level (length lichess_moves))
               0%nat lichess_moves
    end
  end.

End Traversal.

End Chesser2.

(** ** Observations on the log *)

Definition is_http_get (e : event) : bool :=
  match e with HttpGet _ _ => true | _ => false end.

Definition is_engine_call (e : event) : bool :=
  match e with EnginePlay _ _ | EngineAnalyse _ _ => true | _ => false end.

Definition is_engine_play (e : event) : bool :=
  match e with EnginePlay _ _ => true | _ => false end.

Definition is_sleep (e : event) : bool :=
  match e with Sleep _ => true | _ => false end.

Definition is_print (e : event) : bool :=
  match e with Print _ _ => true | _ => false end.

Fixpoint count (p : event -> bool) (l : list event) : nat :=
  match l with
  | [] => 0
  | e :: l' => (if p e then 1 else 0) + count p l'
  end.

(** * Vocabulary of the properties *)

Section Vocabulary.
Context {C : Collaborators}.
Implicit Types (s : Sys C) (board : Board C) (move_history : History C).

(** What a run can only add to.

    [extends s s']: from [s] to [s'] the cache kept all its entries, the
    explored set and the log only grew, records were only appended, and
    the counter moved with the number of cache keys. *)
Record extends s s' : Prop := {
  ext_min_games : min_games (self s') = min_games (self s);
  ext_cache : analyzed_positions (self s) ⊆ analyzed_positions (self s');
  ext_explored : fully_explored_fens (self s) ⊆ fully_explored_fens (self s');
  ext_counter :
    variation_counter (self s') - variation_counter (self s) =
    Z.of_nat (size (analyzed_positions (self s'))) -
    Z.of_nat (size (analyzed_positions (self s)));
  ext_records : exists (new : list LineRecord) (evs : list event),
    all_variations (self s') = all_variations (self s) ++ new /\
    log s' = log s ++ evs /\
    Z.of_nat (length new) <=
      Z.of_nat (size (analyzed_positions (self s'))) -
      Z.of_nat (size (analyzed_positions (self s))) /\
    (length new <= count is_engine_play evs)%nat
}.

Definition monotone {A} (m : M C A) : Prop := forall s, extends s (snd (m s)).


(** The state once a fresh reply is cached and counted: the two
    assignments of the cold path that precede the parsing of the reply. *)
Definition reply_stored (cache_key : string) (best : Response C) s : Sys C :=
  set_self
    (set_variation_counter (variation_counter (self s) + 1)
       (set_analyzed_positions
          (<[cache_key := {| br_uci := r_uci best; br_san := r_san best;
                             br_evaluation := r_evaluation best |}]>
             (analyzed_positions (self s))) (self s))) s.

(** The entry that the cold path appends to [all_variations]. *)
Definition line_record (number : Z) (complete_history : History C)
    (best : Response C) (move_data : Candidate) : LineRecord :=
  {| lr_number := number;
     lr_moves := get_move_path_string complete_history;
     lr_evaluation := r_evaluation best;
     lr_games := c_games move_data;
     lr_depth := length complete_history |}.

(** The state once the line is written, recorded and checkpointed;
    [s] is the state after [reply_stored]. *)
Definition line_saved (depth_level : nat) (complete_history : History C)
    (best : Response C) (move_data : Candidate) s : Sys C :=
  let number := variation_counter (self s) in
  let a := set_all_variations
             (all_variations (self s) ++
                [line_record number complete_history best move_data]) (self s) in
  {| self := a; world := world s;
     disk := <[progress_file := JsonObject (snapshot a)]> (disk s);
     log := log s ++
            [WriteFile (variation_file number)
               (generate_pgn C complete_history (r_evaluation best)
                  ("Variation " +:+ pretty number));
             Print depth_level (SavedAs (variation_file number));
             JsonDump progress_file] |}.

(** The ways one iteration of the loop can go, for a candidate
    [move_data] met in state [s]; the last argument is what the iteration
    evaluates to. *)
Inductive iteration
    (recurse : Board C -> History C -> nat -> M C unit)
    board move_history (depth_level : nat) (fen : string) (n i : nat)
    (move_data : Candidate) s : res unit * Sys C -> Prop :=
| cached_recursed cached move after_move reply after_reply :
    analyzed_positions (self s) !! _cache_key fen (c_uci move_data) = Some cached ->
    from_uci C (c_uci move_data) = Some move ->
    push C board move = Some after_move ->
    from_uci C (br_uci cached) = Some reply ->
    push C after_move reply = Some after_reply ->
    iteration recurse board move_history depth_level fen n i move_data s
      (recurse after_reply
         ((move_history ++ [(move, c_san move_data)]) ++ [(reply, br_san cached)])
         (S depth_level)
         (append_log [Print depth_level
                        (MoveCached (i + 1) n (c_san move_data) (c_games move_data)
                           (br_san cached) (br_evaluation cached))] s))
| cached_raised cached e :
    analyzed_positions (self s) !! _cache_key fen (c_uci move_data) = Some cached ->
    (from_uci C (c_uci move_data) = None \/
     exists move, from_uci C (c_uci move_data) = Some move /\
       (push C board move = None \/
        exists after_move, push C board move = Some after_move /\
          (from_uci C (br_uci cached) = None \/
           exists reply, from_uci C (br_uci cached) = Some reply /\
                         push C after_move reply = None))) ->
    iteration recurse board move_history depth_level fen n i move_data s
      (Raise e,
       append_log [Print depth_level
                     (MoveCached (i + 1) n (c_san move_data) (c_games move_data)
                        (br_san cached) (br_evaluation cached))] s)
| move_failed e :
    analyzed_positions (self s) !! _cache_key fen (c_uci move_data) = None ->
    (from_uci C (c_uci move_data) = None \/
     exists move, from_uci C (c_uci move_data) = Some move /\
                  push C board move = None) ->
    iteration recurse board move_history depth_level fen n i move_data s
      (Ret tt,
       append_log [Print depth_level
                     (MoveHeader (i + 1) n (c_san move_data) (c_games move_data));
                   Print depth_level (ErrorMakingMove e)] s)
| no_reply move after_move s1 s2 :
    analyzed_positions (self s) !! _cache_key fen (c_uci move_data) = None ->
    from_uci C (c_uci move_data) = Some move ->
    push C board move = Some after_move ->
    s1 = append_log [Print depth_level
                       (MoveHeader (i + 1) n (c_san move_data) (c_games move_data));
                     Print depth_level FindingBestResponse] s ->
    get_best_response C after_move 40 s1 = (Ret None, s2) ->
    iteration recurse board move_history depth_level fen n i move_data s
      (Ret tt, append_log [Print depth_level CouldNotFindBestResponse] s2)
| fresh_recursed move after_move s1 s2 best reply after_reply stored history :
    analyzed_positions (self s) !! _cache_key fen (c_uci move_data) = None ->
    from_uci C (c_uci move_data) = Some move ->
    push C board move = Some after_move ->
    s1 = append_log [Print depth_level
                       (MoveHeader (i + 1) n (c_san move_data) (c_games move_data));
                     Print depth_level FindingBestResponse] s ->
    get_best_response C after_move 40 s1 = (Ret (Some best), s2) ->
    stored = reply_stored (_cache_key fen (c_uci move_data)) best
               (append_log [Print depth_level
                              (BestResponseIs (r_san best) (r_evaluation best))] s2) ->
    from_uci C (r_uci best) = Some reply ->
    push C after_move reply = Some after_reply ->
    history = (move_history ++ [(move, c_san move_data)]) ++ [(reply, r_san best)] ->
    iteration recurse board move_history depth_level fen n i move_data s
      (recurse after_reply history (S depth_level)
         (line_saved depth_level history best move_data stored))
| fresh_raised move after_move s1 s2 best stored e s3 :
    analyzed_positions (self s) !! _cache_key fen (c_uci move_data) = None ->
    from_uci C (c_uci move_data) = Some move ->
    push C board move = Some after_move ->
    s1 = append_log [Print depth_level
                       (MoveHeader (i + 1) n (c_san move_data) (c_games move_data));
                     Print depth_level FindingBestResponse] s ->
    get_best_response C after_move 40 s1 = (Ret (Some best), s2) ->
    stored = reply_stored (_cache_key fen (c_uci move_data)) best
               (append_log [Print depth_level
                              (BestResponseIs (r_san best) (r_evaluation best))] s2) ->
    (from_uci C (r_uci best) = None /\ s3 = stored \/
     exists reply history,
       from_uci C (r_uci best) = Some reply /\
       push C after_move reply = None /\
       history = (move_history ++ [(move, c_san move_data)]) ++ [(reply, r_san best)] /\
       s3 = line_saved depth_level history best move_data stored) ->
    iteration recurse board move_history depth_level fen n i move_data s
      (Raise e, s3).

(** A candidate that was passed over during the run that started in
    [start]: it did not apply to the board, or the evaluator, asked in a
    state [st] of that run, gave no reply. *)
Definition skipped board (move_data : Candidate) (start : Sys C) : Prop :=
  from_uci C (c_uci move_data) = None \/
  exists move, from_uci C (c_uci move_data) = Some move /\
    (push C board move = None \/
     exists after_move st st',
       push C board move = Some after_move /\
       extends start st /\
       get_best_response C after_move 40 st = (Ret None, st')).

(** Two facts about the chess library that the sign of an evaluation
    rests on: a move passes the turn to the other side, and the score of an
    analysis is relative to the side to move of the analysed board. *)
Definition sides_alternate : Prop :=
  forall (b b' : Board C) (m : Move C),
    push C b m = Some b' -> turn C b' = negb (turn C b).

Definition score_is_for_side_to_move : Prop :=
  forall (w w' : World C) (b : Board C) (depth : Z) (info : PovScore),
    engine_analyse C w b depth = (Some info, w') -> pov_turn info = turn C b.

(** The invariant of the explored set as the specification words it:
    when a call marks its position explored, every candidate the oracle
    returned to that call has a cache entry. *)
Definition explored_implies_all_cached : Prop :=
  forall fuel board move_history d s s' (moves : list Candidate) s1,
    board_fen C board ∉ fully_explored_fens (self s) ->
    get_lichess_moves C board 5
      (append_log [Print d (AnalyzingPositionAfter
                              (get_move_path_string move_history))] s)
      = (Ret moves, s1) ->
    analyze_position_recursive C (S fuel) board move_history d s = (Ret tt, s') ->
    board_fen C board ∈ fully_explored_fens (self s') ->
    forall move_data, move_data ∈ moves ->
      is_Some (analyzed_positions (self s') !!
                 _cache_key (board_fen C board) (c_uci move_data)).

(** The sign convention as the specification words it: the evaluation of
    a reply to a candidate played on [board] is the engine's score from the
    side that was to move on [board]. *)
Definition evaluation_is_for_candidate_mover : Prop :=
  forall board (move : Move C) (after_move after_reply : Board C) s1 s2
         (best : Response C) (w1 w2 : World C) (info : PovScore),
    push C board move = Some after_move ->
    get_best_response C after_move 40 s1 = (Ret (Some best), s2) ->
    engine_play C (world s1) after_move 40 = (Some (Some (r_move best)), w1) ->
    push C after_move (r_move best) = Some after_reply ->
    engine_analyse C w1 after_reply 20 = (Some info, w2) ->
    Qeq (r_evaluation best) (Qmake (pov info (turn C board)) 100).

End Vocabulary.

Arguments sides_alternate : clear implicits.
Arguments score_is_for_side_to_move : clear implicits.
Arguments explored_implies_all_cached : clear implicits.
Arguments evaluation_is_for_candidate_mover : clear implicits.

(** * A small concrete world

    Boards are the lists of moves played and their "FEN" is that list
    joined by spaces; the explorer answers from a script, one answer per
    request; the engine replies to 1. e4 and 1. d4 and has no move
    elsewhere.  Used for the concrete runs below. *)

Module Scenario.

Definition play (b : list string) : option (option string) :=
  match b with
  | ["e2e4"%string] => Some (Some "e7e5"%string)
  | ["d2d4"%string] => Some (Some "d7d5"%string)
  | _ => Some None
  end.

Definition world : Collaborators := {|
  Board := list string;
  Move := string;
  World := list http_outcome;
  board_fen := fun b => String.concat " " b;
  turn := fun b => Nat.even (length b);
  from_uci := fun u => if decide (u = "0000"%string) then None else Some u;
  move_uci := fun m => m;
  push := fun b m => Some (b ++ [m]);
  board_san := fun b m => Some m;
  requests_get := fun w _ _ =>
    match w with
    | [] => (HttpJson (Some []), [])
    | answer :: w' => (answer, w')
    end;
  engine_play := fun w b _ => (play b, w);
  engine_analyse := fun w b _ =>
    (Some {| relative := Some 20; pov_turn := Nat.even (length b) |}, w);
  generate_pgn := fun _ _ name => name
|}.

Definition entry (uci : string) (white draws black : Z) : move_data :=
  {| md_uci := Some uci; md_san := Some uci; md_white := Some white;
     md_draws := Some draws; md_black := Some black |}.

(** The explorer's answer at the starting position: two playable moves,
    one malformed move, one rare move and one move the engine has no
    reply to. *)
Definition opening : http_outcome :=
  HttpJson (Some [entry "e2e4" 500 300 200; entry "d2d4" 400 200 200;
                  entry "0000" 600 0 0; entry "a2a3" 1 1 1;
                  entry "h2h4" 900 0 0]).

(** The candidates that pass the threshold 500 in [opening]. *)
Definition candidate (uci : string) (white draws black : Z) : Candidate :=
  {| c_uci := uci; c_san := uci; c_games := white + draws + black;
     c_white_wins := white; c_draws := draws; c_black_wins := black |}.

Definition candidates : list Candidate :=
  [candidate "e2e4" 500 300 200; candidate "d2d4" 400 200 200;
   candidate "0000" 600 0 0; candidate "h2h4" 900 0 0].

(** The engine's reply to 1. e4. *)
Definition reply_to_e4 : Response world :=
  Build_Response world "e7e5"%string "e7e5" "e7e5" (Qmake (-20) 100).

Definition cached_reply_to_e4 : BestReply :=
  {| br_uci := "e7e5"; br_san := "e7e5"; br_evaluation := Qmake (-20) 100 |}.

(** A fresh analyzer with threshold 500, facing the given script. *)
Definition fresh (script : list http_outcome) : Sys world :=
  Build_Sys world (init 500) script ∅ [].

(** The state in which a first run from the starting position ends. *)
Definition after_first_run : Sys world :=
  snd (analyze_position_recursive world 5 [] [] 0 (fresh [opening])).

(** The state in which the loop body asks the evaluator about a candidate
    met in [s]. *)
Definition asking (d n i : nat) (move_data : Candidate) (s : Sys world) : Sys world :=
  append_log [Print d (MoveHeader (i + 1) n (c_san move_data) (c_games move_data));
              Print d FindingBestResponse] s.

(** An analyzer whose progress file cannot be used. *)
Definition with_progress_file (f : file_state) : Sys world :=
  Build_Sys world (init 500) [] {[progress_file := f]} [].

End Scenario.

(** * Further vocabulary *)

(** ** Queries and runs *)

Definition qualifies (min_games : Z) (md : move_data) : bool :=
  min_games <=? total_games md.

Definition reported_as (md : move_data) (c : Candidate) : Prop :=
  md_uci md = Some (c_uci c) /\ md_san md = Some (c_san c) /\
  c_games c = total_games md /\
  c_white_wins c = default 0 (md_white md) /\
  c_draws c = default 0 (md_draws md) /\
  c_black_wins c = default 0 (md_black md).

Definition lacks_key (md : move_data) : bool :=
  match md_uci md, md_san md with
  | Some _, Some _ => false
  | _, _ => true
  end.

Fixpoint occurs (a : ascii) (s : string) : bool :=
  match s with
  | EmptyString => false
  | String b s' => Ascii.eqb a b || occurs a s'
  end.


Definition is_rate_event (e : event) : bool := is_http_get e || is_sleep e.

Fixpoint keep (p : event -> bool) (l : list event) : list event :=
  match l with
  | [] => []
  | e :: l' => if p e then e :: keep p l' else keep p l'
  end.

(** One request of the traversal with the sleep that follows it. *)
Definition paced_query (fen : string) : list event :=
  [HttpGet fen 5; Sleep (1 # 2)].

Section Runs.
Context {C : Collaborators}.
Implicit Types (s : Sys C).

(** The requests of a run are each followed by the sleep. *)
Definition paced s s' : Prop :=
  exists (evs : list event) (fens : list string),
    log s' = log s ++ evs /\
    keep is_rate_event evs = flat_map paced_query fens.

(** New records are numbered upwards from the old counter. *)
Definition numbered s s' : Prop :=
  variation_counter (self s) <= variation_counter (self s') /\
  exists new : list LineRecord,
    all_variations (self s') = all_variations (self s) ++ new /\
    StronglySorted Z.lt (map lr_number new) /\
    Forall (fun r => variation_counter (self s) < lr_number r <=
                     variation_counter (self s')) new.

(** The checkpoint on disk is the current state of the analyzer. *)
Definition synced s : Prop :=
  disk s !! progress_file = Some (JsonObject (snapshot (self s))).
(** New records are lines that extend a history of [n] plies by pairs of
    plies. *)
Definition deepens (n : nat) s s' : Prop :=
  exists new : list LineRecord,
    all_variations (self s') = all_variations (self s) ++ new /\
    Forall (fun r => exists k : nat, lr_depth r = (n + 2 * S k)%nat) new.

(** Every position asked about is in the explored set afterwards. *)
Definition queries_settled s s' : Prop :=
  exists evs : list event,
    log s' = log s ++ evs /\
    forall fen n, HttpGet fen n ∈ evs -> fen ∈ fully_explored_fens (self s').
End Runs.

(** A computation that relates every state to the state it leaves. *)
Definition keeps {C : Collaborators} (R : Sys C -> Sys C -> Prop) {A}
    (m : M C A) : Prop :=
  forall s, R s (snd (m s)).

(** ** Runs of the earlier traversal *)

Definition is_json_dump (e : event) : bool :=
  match e with JsonDump _ => true | _ => false end.

Definition is_write_file (e : event) : bool :=
  match e with WriteFile _ _ => true | _ => false end.

Section EarlierRuns.
Context {C : Collaborators}.
Implicit Types (s : Sys C).

(** What a run of the earlier traversal does to the state: it touches
    neither cache, explored set nor disk, never sleeps, and appends one
    record per PGN file it writes. *)
Record plain_run s s' : Prop := {
  plain_min_games : min_games (self s') = min_games (self s);
  plain_cache : analyzed_positions (self s') = analyzed_positions (self s);
  plain_explored : fully_explored_fens (self s') = fully_explored_fens (self s);
  plain_disk : disk s' = disk s;
  plain_records : exists (new : list LineRecord) (evs : list event),
    all_variations (self s') = all_variations (self s) ++ new /\
    log s' = log s ++ evs /\
    count is_write_file evs = length new /\
    (length new <= count is_engine_play evs)%nat /\
    Z.of_nat (length new) <= variation_counter (self s') - variation_counter (self s) /\
    count is_sleep evs = 0%nat /\
    count is_json_dump evs = 0%nat
}.
End EarlierRuns.

(** ** The opening line: [analyze_position] *)

(** [str.isdigit()], on ASCII text. *)
Definition is_ascii_digit (a : ascii) : bool :=
  let n := nat_of_ascii a in (48 <=? n)%nat && (n <=? 57)%nat.

Fixpoint all_digits (t : string) : bool :=
  match t with
  | EmptyString => true
  | String a t' => is_ascii_digit a && all_digits t'
  end.

Definition isdigit (t : string) : bool :=
  match t with
  | EmptyString => false
  | _ => all_digits t
  end.

(** [t.replace(".", "")] *)
Fixpoint remove_dots (t : string) : string :=
  match t with
  | EmptyString => EmptyString
  | String a t' =>
    if Ascii.eqb a "." then remove_dots t' else String a (remove_dots t')
  end.

(** [t.split()]: the maximal runs of characters that are no whitespace;
    [cur] is the run being read. *)
Fixpoint split_from (cur : string) (t : string) : list string :=
  match t with
  | EmptyString => match cur with EmptyString => [] | _ => [cur] end
  | String a t' =>
    if is_py_space a
    then match cur with
         | EmptyString => split_from "" t'
         | _ => cur :: split_from "" t'
         end
    else split_from (cur +:+ String a "") t'
  end.

Definition split (t : string) : list string := split_from "" t.

(** What [analyze_position] uses of python-chess besides [Collaborators]:
    the starting board, the moves of the game that [chess.pgn.read_game]
    reads from a text (outer [None]: an exception, inner [None]: no game),
    and [board.parse_san] ([None]: an exception). *)
Record PgnLibrary (C : Collaborators) := {
  new_board : Board C;
  read_game : string -> option (option (list (Move C)));
  parse_san : Board C -> string -> option (Move C)
}.
Arguments new_board {C} _.
Arguments read_game {C} _ _.
Arguments parse_san {C} _ _ _.

Section Opening.
Context (C : Collaborators) (P : PgnLibrary C).

(** The loop over [game.mainline_moves()]; [None] when [board.san] or
    [board.push] raises. *)
Fixpoint replay (board : Board C) (move_history : History C)
    (moves : list (Move C)) : option (Board C * History C) :=
  match moves with
  | [] => Some (board, move_history)
  | move :: rest =>
    match board_san C board move with
    | None => None
    | Some san =>
      match push C board move with
      | None => None
      | Some board' => replay board' (move_history ++ [(move, san)]) rest
      end
    end
  end.

(** The loop over the tokens in the [except] branch.  The third component
    lists the tokens for which "Could not parse move" is printed.  When
    [board.push] raises, the move is already in [move_history]; the board
    is taken to be left as it was. *)
Fixpoint parse_tokens (board : Board C) (move_history : History C)
    (tokens : list string) : Board C * History C * list string :=
  match tokens with
  | [] => (board, move_history, [])
  | token :: rest =>
    if isdigit token then parse_tokens board move_history rest
    else
      match parse_san P board token with
      | None =>
        let '(b, h, bad) := parse_tokens board move_history rest in
        (b, h, token :: bad)
      | Some move =>
        match push C board move with
        | Some board' =>
          parse_tokens board' (move_history ++ [(move, token)]) rest
        | None =>
          let '(b, h, bad) :=
            parse_tokens board (move_history ++ [(move, token)]) rest in
          (b, h, token :: bad)
        end
      end
  end.

Definition parse_manually (pgn_moves : string)
    : Board C * History C * list string :=
  parse_tokens (new_board P) [] (split (remove_dots pgn_moves)).

(** The parsing part of [analyze_position]: board, history, and the
    tokens reported as unparseable. *)
Definition parse_opening (pgn_moves : string)
    : Board C * History C * list string :=
  match read_game P pgn_moves with
  | Some (Some moves) =>
    match replay (new_board P) [] moves with
    | Some (board, move_history) => (board, move_history, [])
    | None => parse_manually pgn_moves
    end
  | _ => parse_manually pgn_moves
  end.

(** [analyze_position]; its printed lines other than those of the
    traversal are left out of the log. *)
Definition analyze_position (fuel : nat) (pgn_moves : string) : M C unit :=
  let '(board, move_history, _) := parse_opening pgn_moves in
  analyze_position_from C fuel board move_history.

(** The board reached from [board] by pushing [moves]. *)
Fixpoint reached (board : Board C) (moves : list (Move C)) : option (Board C) :=
  match moves with
  | [] => Some board
  | move :: rest =>
    match push C board move with
    | None => None
    | Some board' => reached board' rest
    end
  end.

End Opening.

Fixpoint ascii_only (t : string) : bool :=
  match t with
  | EmptyString => true
  | String a t' => (nat_of_ascii a <? 128)%nat && ascii_only t'
  end.

Fixpoint has_space (t : string) : bool :=
  match t with
  | EmptyString => false
  | String a t' => is_py_space a || has_space t'
  end.

Fixpoint all_space (t : string) : bool :=
  match t with
  | EmptyString => true
  | String a t' => is_py_space a && all_space t'
  end.

(** A SAN as the rules library writes it: ASCII text, not empty, without
    whitespace and dots, and not a number. *)
Definition clean_san (san : string) : Prop :=
  ascii_only san = true /\ san <> EmptyString /\ has_space san = false /\
  occurs "." san = false /\ isdigit san = false.

(** The tokens that the manual parse hands to [parse_san]. *)
Definition san_tokens (pgn_moves : string) : list string :=
  List.filter (fun token => negb (isdigit token)) (split (remove_dots pgn_moves)).

Section Spelling.
Context {C : Collaborators} (P : PgnLibrary C).

(** [spelled board line board']: every SAN of [line] parses, on the board
    reached so far, as the move it is paired with, and pushing the moves
    leads from [board] to [board']. *)
Inductive spelled (board : Board C) : History C -> Board C -> Prop :=
| spelled_nil : spelled board [] board
| spelled_cons move san rest board' board'' :
    parse_san P board san = Some move ->
    push C board move = Some board' ->
    spelled board' rest board'' ->
    spelled board ((move, san) :: rest) board''.
End Spelling.

(** ** The tree view of [main] *)

(** [max(v['depth'] for v in all_variations) if all_variations else 0] *)
Definition max_depth (variations : list LineRecord) : nat :=
  foldr Nat.max 0%nat (map lr_depth variations).

(** [range(2, max_depth + 1, 2)] *)
Definition even_depths (max_depth : nat) : list nat :=
  map (fun k => (2 * S k)%nat) (seq 0 (max_depth / 2)).

(** What [main] writes to variation_tree.txt below the title: for every
    depth of [even_depths], in order, the records of that depth, when
    there are any. *)
Definition tree_groups (variations : list LineRecord)
    : list (nat * list LineRecord) :=
  List.filter (fun group => negb (Nat.eqb (length (snd group)) 0))
    (map (fun depth =>
            (depth, List.filter (fun v => Nat.eqb (lr_depth v) depth) variations))
         (even_depths (max_depth variations))).

(** ** An opening line in the concrete world *)

Module OpeningScenario.

(** The rules library for [Scenario.world]: a move is written as its UCI
    text, every token but "??" parses, and [read_game] finds no game, so
    that the line is parsed by hand. *)
Definition library : PgnLibrary Scenario.world :=
  Build_PgnLibrary Scenario.world
    ([] : list string)
    (fun _ => Some None)
    (fun _ token => if decide (token = "??"%string) then None else Some token).

Definition line : History Scenario.world :=
  [("e2e4"%string, "e2e4"%string); ("e7e5"%string, "e7e5"%string);
   ("g1f3"%string, "g1f3"%string)].

Definition board_after_line : Board Scenario.world :=
  ["e2e4"%string; "e7e5"%string; "g1f3"%string].

(** A line of one ply, as the history of a traversal that starts from the
    empty board of [Scenario.world]. *)
Definition one_ply : History Scenario.world := [("g1f3"%string, "g1f3"%string)].

End OpeningScenario.

(** * Properties *)

Example path_example :
  get_move_path_string [(tt, "Nf3"); (tt, "d5"); (tt, "g3")]%string = "1. Nf3 d5 2. g3"%string.
Proof. reflexivity. Qed.

Section Properties.
Context {C : Collaborators}.
Implicit Types (s : Sys C) (board : Board C) (move_history : History C).

Lemma count_app p (l1 l2 : list event) :
  count p (l1 ++ l2) = (count p l1 + count p l2)%nat.
Proof. induction l1 as [|e l1 IH]; simpl; [done | rewrite IH; lia]. Qed.

(** ** Equations of the monad *)

Lemma bind_or_raise {A B} (o : option A) e (k : A -> M C B) s :
  bind (or_raise o e) k s =
  match o with Some a => k a s | None => (Raise e, s) end.
Proof. destruct o; reflexivity. Qed.

Lemma bind_print {B} d m (k : unit -> M C B) s :
  bind (print d m) k s = k tt (append_log [Print d m] s).
Proof. reflexivity. Qed.

Lemma bind_emit {B} e (k : unit -> M C B) s :
  bind (emit e) k s = k tt (append_log [e] s).
Proof. reflexivity. Qed.

Lemma bind_get_self {B} (k : Analyzer -> M C B) s :
  bind get_self k s = k (self s) s.
Proof. reflexivity. Qed.

Lemma bind_modify_self {B} f (k : unit -> M C B) s :
  bind (modify_self f) k s = k tt (set_self (f (self s)) s).
Proof. reflexivity. Qed.

Lemma bind_eq {A B} (m : M C A) (k : A -> M C B) s a s' :
  m s = (Ret a, s') -> bind m k s = k a s'.
Proof. unfold bind. by intros ->. Qed.

Lemma append_log_append_log l1 l2 s :
  append_log l2 (append_log l1 s) = append_log (l1 ++ l2) s.
Proof. unfold append_log; simpl. by rewrite app_assoc. Qed.

Lemma extends_refl s : extends s s.
Proof.
  split; try done; try lia.
  exists [], []. rewrite !app_nil_r. simpl. repeat split; lia.
Qed.

Lemma extends_trans s1 s2 s3 : extends s1 s2 -> extends s2 s3 -> extends s1 s3.
Proof.
  intros [Hm1 Hc1 He1 Hn1 (n1 & l1 & Hv1 & Hl1 & Hs1 & Hp1)]
         [Hm2 Hc2 He2 Hn2 (n2 & l2 & Hv2 & Hl2 & Hs2 & Hp2)].
  split.
  - congruence.
  - by etrans.
  - by etrans.
  - lia.
  - exists (n1 ++ n2), (l1 ++ l2).
    rewrite Hv2, Hv1, Hl2, Hl1, !app_assoc, length_app, count_app.
    repeat split; lia.
Qed.

(** A step that leaves [self] alone and appends to the log. *)
Lemma extends_same_self s s' evs :
  self s' = self s -> log s' = log s ++ evs -> extends s s'.
Proof.
  intros Hs Hl. split; rewrite ?Hs; try done; try lia.
  exists [], evs. rewrite app_nil_r. simpl. repeat split; try done; lia.
Qed.

(** Marking a position explored. *)
Lemma extends_mark s fen :
  extends s (snd (mark_fully_explored C fen s)).
Proof.
  split; simpl; try done; try lia.
  - set_solver.
  - exists [], []. rewrite !app_nil_r. simpl. repeat split; lia.
Qed.

Lemma extends_save s file : extends s (snd (save_progress C file s)).
Proof. by apply extends_same_self with [JsonDump file]. Qed.

Lemma extends_emit s e : extends s (snd (emit e s)).
Proof. by apply extends_same_self with [e]. Qed.

(** ** The two queries *)

(** Building the list of moves can only fail with a [KeyError]. *)
Lemma popular_moves_error mg acc data e :
  popular_moves mg acc data = inl e -> is_request_exception e = false.
Proof.
  revert acc. induction data as [|md rest IH]; intros acc; simpl; [done|].
  destruct (append_if_popular mg acc md) as [e'|acc'] eqn:Hstep; [|by apply IH].
  intros [= <-]. unfold append_if_popular in Hstep.
  repeat case_match; naive_solver.
Qed.

(** [get_lichess_moves] written out: one request, the failure message when
    the request failed, and the sleep in every case. *)
Lemma get_lichess_moves_eq board top_n s :
  get_lichess_moves C board top_n s =
  let fen := board_fen C board in
  let (response, w) := requests_get C (world s) fen top_n in
  match response with
  | HttpFailure =>
    (Ret [],
     append_log [HttpGet fen top_n; Print 0 (ErrorFetchingLichess RequestException);
                 Sleep (1 # 2)] (set_world w s))
  | HttpJson data =>
    (match popular_moves (min_games (self s)) []
             (py_prefix top_n (default [] data)) with
     | inl e => Raise e
     | inr moves => Ret moves
     end,
     append_log [HttpGet fen top_n; Sleep (1 # 2)] (set_world w s))
  end.
Proof.
  unfold get_lichess_moves, try_finally, try_except, fetch_moves, bind, call,
    emit, print, get_self, of_sum, append_log, set_world; simpl.
  destruct (requests_get C (world s) (board_fen C board) top_n) as [[|data] w]; simpl.
  - by rewrite <- !app_assoc.
  - destruct (popular_moves _ _ _) as [e|moves] eqn:Hmoves; simpl.
    + rewrite (popular_moves_error _ _ _ _ Hmoves). simpl.
      by rewrite <- !app_assoc.
    + by rewrite <- !app_assoc.
Qed.

(** [get_best_response] never raises and never touches [self] or the
    disk; it calls [engine.play] exactly once.  When it returns a reply, the
    reply is the engine's move and its evaluation is minus the relative
    score of the position after that move, over 100. *)
Lemma get_best_response_spec board depth s :
  exists (r : option (Response C)) (w : World C) (evs : list event),
    get_best_response C board depth s =
      (Ret r, append_log (EnginePlay (board_fen C board) depth :: evs) (set_world w s)) /\
    count is_engine_play evs = 0%nat /\
    count is_http_get evs = 0%nat /\
    forall best, r = Some best ->
      exists (w1 : World C) (after_reply : Board C) (info : PovScore),
        engine_play C (world s) board depth = (Some (Some (r_move best)), w1) /\
        push C board (r_move best) = Some after_reply /\
        engine_analyse C w1 after_reply 20 = (Some info, w) /\
        r_uci best = move_uci C (r_move best) /\
        board_san C board (r_move best) = Some (r_san best) /\
        r_evaluation best = Qmake (- default 0 (relative info)) 100.
Proof.
  unfold get_best_response, try_except, bind, call, print, emit, or_raise,
    ret, raise, append_log, set_world; simpl.
  destruct (engine_play C (world s) board depth) as [[[mv|]|] w1] eqn:Hplay; simpl.
  - destruct (push C board mv) as [temp|] eqn:Hpush; simpl.
    + destruct (engine_analyse C w1 temp 20) as [[info|] w2] eqn:Han; simpl.
      * destruct (board_san C board mv) as [san|] eqn:Hsan; simpl.
        -- eexists _, w2, [_]. rewrite <- !app_assoc. simpl.
           split; [reflexivity|]. repeat split; try done.
           intros best [= <-]. simpl. by exists w1, temp, info.
        -- eexists None, w2, [_; _]. rewrite <- !app_assoc. simpl.
           split; [reflexivity|]. repeat split; done.
      * eexists None, w2, [_; _]. rewrite <- !app_assoc. simpl.
        split; [reflexivity|]. repeat split; done.
    + eexists None, w1, [_]. rewrite <- !app_assoc. simpl.
      split; [reflexivity|]. repeat split; done.
  - eexists None, w1, []. split; [reflexivity|]. repeat split; done.
  - eexists None, w1, [_]. rewrite <- !app_assoc. simpl.
      split; [reflexivity|]. repeat split; done.
Qed.

(** ** One candidate, written out *)

Lemma make_popular_move_eq board move_history depth_level move_data s :
  make_popular_move C board move_history depth_level move_data s =
  match from_uci C (c_uci move_data) with
  | None =>
    (Ret None,
     append_log [Print depth_level
                   (ErrorMakingMove (InvalidMoveError (c_uci move_data)))] s)
  | Some move =>
    match push C board move with
    | None =>
      (Ret None, append_log [Print depth_level (ErrorMakingMove PushError)] s)
    | Some temp_board =>
      (Ret (Some (temp_board, move_history ++ [(move, c_san move_data)])), s)
    end
  end.
Proof.
  unfold make_popular_move, try_except, bind, or_raise, raise, ret.
  destruct (from_uci C (c_uci move_data)) as [move|]; [|done].
  by destruct (push C board move).
Qed.

Lemma process_candidate_iteration recurse board move_history depth_level fen n i
    move_data s :
  iteration recurse board move_history depth_level fen n i move_data s
    (process_candidate C recurse board move_history depth_level fen n i move_data s).
Proof.
  unfold process_candidate.
  change (bind get_self ?k s) with (k (self s) s). cbv beta.
  destruct (analyzed_positions (self s) !! _cache_key fen (c_uci move_data))
    as [cached|] eqn:Hkey.
  - change (bind (print ?d ?m) ?k s) with (k tt (append_log [Print d m] s)).
    cbv beta. rewrite !bind_or_raise.
    destruct (from_uci C (c_uci move_data)) as [move|] eqn:Hmove;
      [|eapply cached_raised; eauto].
    rewrite !bind_or_raise.
    destruct (push C board move) as [after_move|] eqn:Hpush;
      [|eapply cached_raised; eauto].
    rewrite !bind_or_raise.
    destruct (from_uci C (br_uci cached)) as [reply|] eqn:Hreply;
      [|eapply cached_raised; eauto 10].
    rewrite !bind_or_raise.
    destruct (push C after_move reply) as [after_reply|] eqn:Hpush2;
      [|eapply cached_raised; eauto 10].
    by eapply cached_recursed.
  - rewrite bind_print.
    unfold bind at 1. rewrite make_popular_move_eq.
    destruct (from_uci C (c_uci move_data)) as [move|] eqn:Hmove.
    2:{ rewrite append_log_append_log. apply move_failed; auto. }
    destruct (push C board move) as [after_move|] eqn:Hpush.
    2:{ rewrite append_log_append_log. apply move_failed; eauto. }
    rewrite bind_print, append_log_append_log. simpl app.
    destruct (get_best_response_spec after_move 40
      (append_log [Print depth_level
                     (MoveHeader (i + 1) n (c_san move_data) (c_games move_data));
                   Print depth_level FindingBestResponse] s))
      as (r & w & evs & Heq & _).
    remember (append_log (EnginePlay _ _ :: evs) _) as s2 eqn:Es2. clear Es2.
    rewrite (bind_eq _ _ _ _ _ Heq).
    destruct r as [best|].
    2:{ eapply no_reply; eauto. }
    rewrite bind_print. unfold store_best_response.
    rewrite !bind_modify_self, bind_or_raise.
    destruct (from_uci C (r_uci best)) as [reply|] eqn:Hreply.
    2:{ eapply fresh_raised; eauto. }
    rewrite bind_get_self, bind_emit, bind_print, bind_modify_self.
    unfold bind at 1, save_progress at 1.
    match goal with
    | |- context [bind (or_raise (push C after_move reply) _) _ ?st] =>
      replace st with
        (line_saved depth_level
           ((move_history ++ [(move, c_san move_data)]) ++ [(reply, r_san best)])
           best move_data
           (reply_stored (_cache_key fen (c_uci move_data)) best
              (append_log [Print depth_level
                             (BestResponseIs (r_san best) (r_evaluation best))] s2)))
        by (unfold line_saved, reply_stored, append_log, set_self; simpl;
            by rewrite <- !app_assoc)
    end.
    rewrite bind_or_raise.
    destruct (push C after_move reply) as [after_reply|] eqn:Hpush2.
    + eapply fresh_recursed; eauto.
    + eapply fresh_raised; eauto. right. by exists reply; eexists.
Qed.

(** ** Monotonicity of the traversal *)

(** The evaluator query as a step: [self] and the disk are kept, and the
    log gains one [EnginePlay]. *)
Lemma get_best_response_step board depth s r s' :
  get_best_response C board depth s = (Ret r, s') ->
  self s' = self s /\ disk s' = disk s /\
  exists evs, log s' = log s ++ EnginePlay (board_fen C board) depth :: evs /\
              count is_engine_play evs = 0%nat /\
              count is_http_get evs = 0%nat.
Proof.
  destruct (get_best_response_spec board depth s) as (r0 & w & evs & Heq & Hp & Hh & _).
  rewrite Heq. intros [= <- <-]. simpl. eauto 10.
Qed.

(** Caching a fresh reply under a key that was absent. *)
Lemma extends_reply_stored s s2 evs key best :
  analyzed_positions (self s) !! key = None ->
  self s2 = self s -> log s2 = log s ++ evs ->
  extends s (reply_stored key best s2).
Proof.
  intros Hkey Hself Hlog.
  split; simpl; rewrite ?Hself; try done.
  - by apply insert_subseteq.
  - rewrite map_size_insert_None by done. lia.
  - exists [], evs. rewrite app_nil_r, map_size_insert_None by done.
    simpl. repeat split; try done; lia.
Qed.

(** Caching, recording and checkpointing a fresh line, after an
    evaluator call. *)
Lemma extends_line_saved s s2 evs key best d history move_data :
  analyzed_positions (self s) !! key = None ->
  self s2 = self s -> log s2 = log s ++ evs ->
  (1 <= count is_engine_play evs)%nat ->
  extends s (line_saved d history best move_data (reply_stored key best s2)).
Proof.
  intros Hkey Hself Hlog Hplay.
  split; simpl; rewrite ?Hself; try done.
  - by apply insert_subseteq.
  - rewrite map_size_insert_None by done. lia.
  - eexists [_], (evs ++ [_; _; _]).
    rewrite map_size_insert_None, count_app by done.
    rewrite Hlog, <- app_assoc. simpl. repeat split; try done; lia.
Qed.

Lemma process_candidate_monotone recurse board move_history d fen n i move_data :
  (forall b h k, monotone (recurse b h k)) ->
  monotone (process_candidate C recurse board move_history d fen n i move_data).
Proof.
  intros Hrec s.
  destruct (process_candidate_iteration recurse board move_history d fen n i
              move_data s)
    as [cached move after_move reply after_reply Hkey _ _ _ _
       |cached e Hkey _
       |e Hkey _
       |move after_move s1 s2 Hkey _ _ -> Hbest
       |move after_move s1 s2 best reply after_reply stored history
          Hkey _ _ -> Hbest -> _ _ _
       |move after_move s1 s2 best stored e s3 Hkey _ _ -> Hbest -> Hs3].
  - eapply extends_trans; [|apply Hrec]. by eapply extends_same_self.
  - by eapply extends_same_self.
  - by eapply extends_same_self.
  - simpl. apply get_best_response_step in Hbest as (Hself & _ & evs & Hlog & _).
    eapply extends_same_self; simpl; [done|].
    rewrite Hlog. simpl. by rewrite <- !app_assoc.
  - apply get_best_response_step in Hbest as (Hself & _ & evs & Hlog & _).
    eapply extends_trans; [|apply Hrec].
    eapply extends_line_saved; simpl; [done|done| |].
    + rewrite Hlog. simpl. by rewrite <- !app_assoc.
    + rewrite !count_app. simpl. lia.
  - apply get_best_response_step in Hbest as (Hself & _ & evs & Hlog & _).
    destruct Hs3 as [[_ ->]|(reply & history & _ & _ & _ & ->)].
    + eapply extends_reply_stored; simpl; [done|done|].
      rewrite Hlog. simpl. by rewrite <- !app_assoc.
    + eapply extends_line_saved; simpl; [done|done| |].
      * rewrite Hlog. simpl. by rewrite <- !app_assoc.
      * rewrite !count_app. simpl. lia.
Qed.

Lemma bind_monotone {A B} (m : M C A) (k : A -> M C B) :
  monotone m -> (forall a, monotone (k a)) -> monotone (bind m k).
Proof.
  intros Hm Hk s. unfold bind. specialize (Hm s).
  destruct (m s) as [[a| |] s1]; simpl in *; try done.
  eapply extends_trans; [done|apply Hk].
Qed.

Lemma for_each_monotone {A} (body : nat -> A -> M C unit) i (l : list A) :
  (forall j x, monotone (body j x)) -> monotone (for_each C body i l).
Proof.
  intros Hbody. revert i. induction l as [|x l IH]; intros i; simpl.
  - intros s. apply extends_refl.
  - apply bind_monotone; [apply Hbody|]. intros _. apply IH.
Qed.

Lemma get_lichess_moves_monotone board top_n :
  monotone (get_lichess_moves C board top_n).
Proof.
  intros s. rewrite get_lichess_moves_eq. cbv zeta.
  destruct (requests_get C (world s) (board_fen C board) top_n) as [[|data] w];
    simpl; by eapply extends_same_self.
Qed.

Lemma analyze_position_recursive_monotone fuel board move_history d :
  monotone (analyze_position_recursive C fuel board move_history d).
Proof.
  revert board move_history d.
  induction fuel as [|fuel IH]; intros board move_history d; simpl.
  - intros s. apply extends_refl.
  - apply bind_monotone; [intros s; apply extends_refl|]. intros a.
    case_decide.
    + intros s. apply extends_emit.
    + apply bind_monotone; [intros s; apply extends_emit|]. intros _.
      apply bind_monotone; [apply get_lichess_moves_monotone|].
      intros [|c moves].
      * repeat (apply bind_monotone; [|intros _]);
          intros s; first [apply extends_emit | apply extends_mark | apply extends_save].
      * apply bind_monotone; [intros s; apply extends_emit|intros _].
        apply bind_monotone; [|intros _].
        -- apply for_each_monotone. intros j x.
           apply process_candidate_monotone. apply IH.
        -- apply bind_monotone; [intros s; apply extends_mark|intros _].
           intros s; apply extends_save.
Qed.

(** ** The paths of one iteration, as equations *)

Section Paths.
Context (recurse : Board C -> History C -> nat -> M C unit).
Context (board : Board C) (move_history : History C) (depth_level : nat).
Context (fen : string) (n i : nat) (move_data : Candidate) (s : Sys C).

Let cache_key := _cache_key fen (c_uci move_data).
Let header :=
  Print depth_level (MoveHeader (i + 1) n (c_san move_data) (c_games move_data)).
Let run := process_candidate C recurse board move_history depth_level fen n i
             move_data s.

Ltac by_cases :=
  subst run cache_key header;
  let H := fresh in
  pose proof (process_candidate_iteration recurse board move_history depth_level
                fen n i move_data s) as H;
  remember (process_candidate C recurse board move_history depth_level fen n i
              move_data s) as out eqn:Hout;
  clear Hout; destruct H;
  repeat match goal with
         | H : _ \/ _ |- _ => destruct H
         | H : _ /\ _ |- _ => destruct H
         | H : ex _ |- _ => destruct H
         end;
  subst; try congruence; try (eexists; reflexivity).

(** Warm path. *)
Lemma process_candidate_cached cached move after_move reply after_reply :
  analyzed_positions (self s) !! cache_key = Some cached ->
  from_uci C (c_uci move_data) = Some move ->
  push C board move = Some after_move ->
  from_uci C (br_uci cached) = Some reply ->
  push C after_move reply = Some after_reply ->
  run = recurse after_reply
          ((move_history ++ [(move, c_san move_data)]) ++ [(reply, br_san cached)])
          (S depth_level)
          (append_log [Print depth_level
                         (MoveCached (i + 1) n (c_san move_data) (c_games move_data)
                            (br_san cached) (br_evaluation cached))] s).
Proof. intros. by_cases. Qed.

(** Cold path, the evaluator gave a reply. *)
Lemma process_candidate_fresh move after_move best s2 reply after_reply :
  analyzed_positions (self s) !! cache_key = None ->
  from_uci C (c_uci move_data) = Some move ->
  push C board move = Some after_move ->
  get_best_response C after_move 40
    (append_log [header; Print depth_level FindingBestResponse] s)
    = (Ret (Some best), s2) ->
  from_uci C (r_uci best) = Some reply ->
  push C after_move reply = Some after_reply ->
  let history :=
    (move_history ++ [(move, c_san move_data)]) ++ [(reply, r_san best)] in
  run = recurse after_reply history (S depth_level)
          (line_saved depth_level history best move_data
             (reply_stored cache_key best
                (append_log [Print depth_level
                               (BestResponseIs (r_san best) (r_evaluation best))]
                   s2))).
Proof. intros. subst history. by_cases. Qed.

(** Cold path, the evaluator gave nothing. *)
Lemma process_candidate_no_reply move after_move s2 :
  analyzed_positions (self s) !! cache_key = None ->
  from_uci C (c_uci move_data) = Some move ->
  push C board move = Some after_move ->
  get_best_response C after_move 40
    (append_log [header; Print depth_level FindingBestResponse] s)
    = (Ret None, s2) ->
  run = (Ret tt, append_log [Print depth_level CouldNotFindBestResponse] s2).
Proof. intros. by_cases. Qed.

(** Cold path, the candidate does not apply. *)
Lemma process_candidate_move_failed :
  analyzed_positions (self s) !! cache_key = None ->
  (from_uci C (c_uci move_data) = None \/
   exists move, from_uci C (c_uci move_data) = Some move /\
                push C board move = None) ->
  exists e, run = (Ret tt, append_log [header; Print depth_level (ErrorMakingMove e)] s).
Proof.
  intros. by_cases.
Qed.

End Paths.

(** ** Checkpoint round trip *)

(** Loading what [save_progress] wrote restores the four fields. *)
Lemma load_progress_snapshot file a s :
  disk s !! file = Some (JsonObject (snapshot a)) ->
  exists s',
    load_progress C file s = (Ret tt, s') /\
    analyzed_positions (self s') = analyzed_positions a /\
    fully_explored_fens (self s') = fully_explored_fens a /\
    variation_counter (self s') = variation_counter a /\
    all_variations (self s') = all_variations a /\
    min_games (self s') = min_games (self s) /\
    world s' = world s /\ disk s' = disk s /\
    exists m, log s' = log s ++ [Print 0 m].
Proof.
  intros Hfile. unfold load_progress. rewrite Hfile.
  eexists. split; [reflexivity|]. simpl.
  repeat split; try done; [|by eexists].
  apply list_to_set_elements_L.
Qed.

(** ** Short circuit on explored positions *)

Lemma analyze_explored fuel board move_history d s :
  board_fen C board ∈ fully_explored_fens (self s) ->
  analyze_position_recursive C (S fuel) board move_history d s =
  (Ret tt,
   append_log [Print d (SkippingFullyExplored (get_move_path_string move_history))] s).
Proof.
  intros Hin. cbn [analyze_position_recursive]. rewrite bind_get_self.
  by rewrite decide_True.
Qed.

(** The base case written out: what the traversal does when the oracle
    query yields no candidate. *)
Lemma analyze_no_candidates fuel board move_history d s s1 :
  board_fen C board ∉ fully_explored_fens (self s) ->
  get_lichess_moves C board 5
    (append_log [Print d (AnalyzingPositionAfter (get_move_path_string move_history))] s)
    = (Ret [], s1) ->
  analyze_position_recursive C (S fuel) board move_history d s =
  save_progress C progress_file
    (snd (mark_fully_explored C (board_fen C board)
            (append_log [Print d (NoMoreMoves (min_games (self s)))] s1))).
Proof.
  intros Hnot Hmoves. cbn [analyze_position_recursive]. rewrite bind_get_self.
  rewrite decide_False by done.
  rewrite bind_print, (bind_eq _ _ _ _ _ Hmoves), bind_print.
  reflexivity.
Qed.

End Properties.

(** * The claims *)

Section Claims.
Context {C : Collaborators}.
Implicit Types (s : Sys C) (board : Board C) (move_history : History C).

(** C4. A call of [analyze_position_recursive] on a position whose FEN is
    in [fully_explored_fens] returns at once: the analyzer object, the
    collaborators' state and the disk are what they were, and the log gains
    one printed line and nothing else, so neither the oracle nor the
    evaluator was called. *)
Theorem explored_position_returns_at_once fuel board move_history d s :
  board_fen C board ∈ fully_explored_fens (self s) ->
  exists s',
    analyze_position_recursive C (S fuel) board move_history d s = (Ret tt, s') /\
    self s' = self s /\ world s' = world s /\ disk s' = disk s /\
    log s' = log s ++
      [Print d (SkippingFullyExplored (get_move_path_string move_history))].
Proof.
  intros Hin. eexists. split; [by apply analyze_explored|done].
Qed.


(** C10. If the HTTP request for a position fails, [get_lichess_moves]
    yields the empty list, the position is put into [fully_explored_fens]
    and checkpointed; from then on a call on a position with that FEN makes
    no request and no engine call, in any later state of the run and in any
    run that resumes from a checkpoint written from then on. *)
Theorem failed_query_prunes_the_position fuel board move_history d s w :
  board_fen C board ∉ fully_explored_fens (self s) ->
  requests_get C (world s) (board_fen C board) 5 = (HttpFailure, w) ->
  exists s',
    fst (get_lichess_moves C board 5
           (append_log [Print d (AnalyzingPositionAfter
                                   (get_move_path_string move_history))] s)) = Ret [] /\
    analyze_position_recursive C (S fuel) board move_history d s = (Ret tt, s') /\
    board_fen C board ∈ fully_explored_fens (self s') /\
    disk s' !! progress_file = Some (JsonObject (snapshot (self s'))) /\
    (forall later fuel' board' history' d',
        extends s' later -> board_fen C board' = board_fen C board ->
        exists evs,
          analyze_position_recursive C (S fuel') board' history' d' later =
            (Ret tt, append_log evs later) /\
          count is_http_get evs = 0%nat /\ count is_engine_call evs = 0%nat) /\
    (forall later restart fuel' board' history',
        extends s' later ->
        disk restart !! progress_file = Some (JsonObject (snapshot (self later))) ->
        board_fen C board' = board_fen C board ->
        exists evs final,
          analyze_position_from C (S fuel') board' history' restart = (Ret tt, final) /\
          world final = world restart /\ disk final = disk restart /\
          log final = log restart ++ evs /\
          count is_http_get evs = 0%nat /\ count is_engine_call evs = 0%nat).
Proof.
  intros Hnot Hreq.
  assert (Hq : get_lichess_moves C board 5
                 (append_log [Print d (AnalyzingPositionAfter
                                         (get_move_path_string move_history))] s)
               = (Ret [],
                  append_log [HttpGet (board_fen C board) 5;
                              Print 0 (ErrorFetchingLichess RequestException);
                              Sleep (1 # 2)]
                    (set_world w
                       (append_log [Print d (AnalyzingPositionAfter
                                               (get_move_path_string move_history))] s)))).
  { rewrite get_lichess_moves_eq. cbv zeta. simpl world. by rewrite Hreq. }
  eexists. split; [by rewrite Hq|].
  split; [by rewrite (analyze_no_candidates _ _ _ _ _ _ Hnot Hq)|].
  split; [simpl; set_solver|]. split; [simpl; by rewrite lookup_insert_eq|]. split.
  - intros later fuel' board' history' d' Hext Hfen.
    eexists [_]. rewrite analyze_explored; [done|].
    rewrite Hfen. apply (ext_explored _ _ Hext). simpl. set_solver.
  - intros later restart fuel' board' history' Hext Hdisk Hfen.
    destruct (load_progress_snapshot progress_file (self later) restart Hdisk)
      as (loaded & Hload & _ & Hexp & _ & _ & _ & Hw & Hd & m & Hlog).
    unfold analyze_position_from. rewrite (bind_eq _ _ _ _ _ Hload).
    rewrite analyze_explored.
    + eexists [_; _], _. split; [reflexivity|]. simpl.
      rewrite Hlog, <- app_assoc. by repeat split.
    + rewrite Hexp, Hfen. apply (ext_explored _ _ Hext). simpl.
      apply elem_of_union. left. by apply elem_of_singleton.
Qed.



(** C2. A cache hit changes nothing before the recursion: the iteration
    either raises or is the recursive call, in both cases from the state
    [s] with one line printed, so with the same counter and records.  And
    over a whole call of [analyze_position_recursive], records are only
    appended, no more of them than the evaluator was invoked and no more
    than keys were added to the cache, and the counter grows by the number
    of added keys; entries that were cached stay as they are. *)
Theorem records_only_on_the_cold_path
    (recurse : Board C -> History C -> nat -> M C unit)
    board move_history d fen n i move_data s cached
    fuel board0 history0 d0 s0 :
  analyzed_positions (self s) !! _cache_key fen (c_uci move_data) = Some cached ->
  (let warm :=
     append_log [Print d (MoveCached (i + 1) n (c_san move_data) (c_games move_data)
                            (br_san cached) (br_evaluation cached))] s in
   (exists e,
       process_candidate C recurse board move_history d fen n i move_data s =
         (Raise e, warm)) \/
   (exists after_reply history,
       process_candidate C recurse board move_history d fen n i move_data s =
         recurse after_reply history (S d) warm)) /\
  (let s' := snd (analyze_position_recursive C fuel board0 history0 d0 s0) in
   exists (new : list LineRecord) (evs : list event),
     all_variations (self s') = all_variations (self s0) ++ new /\
     log s' = log s0 ++ evs /\
     (length new <= count is_engine_play evs)%nat /\
     Z.of_nat (length new) <=
       Z.of_nat (size (analyzed_positions (self s'))) -
       Z.of_nat (size (analyzed_positions (self s0))) /\
     variation_counter (self s') - variation_counter (self s0) =
       Z.of_nat (size (analyzed_positions (self s'))) -
       Z.of_nat (size (analyzed_positions (self s0))) /\
     analyzed_positions (self s0) ⊆ analyzed_positions (self s')).
Proof.
  intros Hkey. split.
  - cbv zeta.
    pose proof (process_candidate_iteration recurse board move_history d fen n i
                  move_data s) as Hit.
    remember (process_candidate C recurse board move_history d fen n i move_data s)
      as out eqn:Hout. clear Hout.
    destruct Hit
      as [cached' ? ? ? ? Hkey' _ _ _ _|cached' ? Hkey' _| | | |]; try congruence.
    + assert (cached' = cached) as -> by congruence. right. by eexists _, _.
    + assert (cached' = cached) as -> by congruence. left. by eexists.
  - cbv zeta.
    destruct (analyze_position_recursive_monotone fuel board0 history0 d0 s0)
      as [_ Hcache _ Hcounter (new & evs & Hvars & Hlog & Hsize & Hplay)].
    exists new, evs. by repeat split.
Qed.

(** The loop over the candidates: when it ends normally, every candidate
    is cached or was passed over. *)
Lemma for_each_candidates fuel board move_history d fen n start
    (moves : list Candidate) :
  forall i s s',
    extends start s ->
    for_each C (process_candidate C (analyze_position_recursive C fuel)
                  board move_history d fen n) i moves s = (Ret tt, s') ->
    extends s s' /\
    forall move_data, move_data ∈ moves ->
      is_Some (analyzed_positions (self s') !! _cache_key fen (c_uci move_data)) \/
      skipped board move_data start.
Proof.
  induction moves as [|c rest IH]; intros i s s' Hstart Hloop.
  - injection Hloop as <-. split; [apply extends_refl|]. by intros x Hx%elem_of_nil.
  - cbn [for_each] in Hloop. unfold bind at 1 in Hloop.
    pose proof (process_candidate_iteration (analyze_position_recursive C fuel)
                  board move_history d fen n i c s) as Hit.
    pose proof (process_candidate_monotone (analyze_position_recursive C fuel)
                  board move_history d fen n i c
                  (analyze_position_recursive_monotone fuel) s) as Hmono.
    destruct (process_candidate C _ board move_history d fen n i c s)
      as [[[]| |] mid] eqn:Hrun; try discriminate.
    simpl in Hmono.
    destruct (IH _ _ _ (extends_trans _ _ _ Hstart Hmono) Hloop) as [Hrest Hall].
    split; [by eapply extends_trans|].
    intros x [->|Hx]%elem_of_cons; [|by apply Hall].
    assert (Hkeep : forall st,
               extends st mid ->
               is_Some (analyzed_positions (self st) !! _cache_key fen (c_uci c)) ->
               is_Some (analyzed_positions (self s') !! _cache_key fen (c_uci c))).
    { intros st Hst [v Hv]. exists v.
      eapply lookup_weaken; [exact Hv|].
      etrans; [apply (ext_cache _ _ Hst)|apply (ext_cache _ _ Hrest)]. }
    inversion Hit; subst.
    + left. apply (Hkeep s Hmono). by eexists.
    + right.
      match goal with
      | H : _ \/ _ |- _ => destruct H as [Hnone|(move & Hmove & Hpush)]
      end.
      * by left.
      * right. exists move. split; [done|by left].
    + right. right. eexists. split; [eassumption|]. right.
      eexists _, _, _. split; [eassumption|]. split; [|eassumption].
      eapply extends_trans; [exact Hstart|]. by eapply extends_same_self.
    + left.
      match goal with
      | H : analyze_position_recursive C fuel ?b ?h ?k ?st = _ |- _ =>
        pose proof (analyze_position_recursive_monotone fuel b h k st) as Hdeep;
        rewrite H in Hdeep; simpl in Hdeep;
        apply (Hkeep st Hdeep)
      end.
      simpl. rewrite lookup_insert_eq. by eexists.
Qed.


(** C3, as the code has it.  On the cold path the reply that is cached
    and recorded carries the engine's score of the position after that
    reply, negated.  That score is relative to the side to move there,
    which is the side that played the candidate; so the stored evaluation
    is signed for the other side, the one that plays the reply (the side to
    move after the candidate move), and is minus the score seen from the
    side to move before the candidate move. *)
Theorem fresh_evaluation_is_for_the_replying_side
    (recurse : Board C -> History C -> nat -> M C unit)
    board move_history d fen n i move_data s move after_move best s2
    reply after_reply :
  sides_alternate C ->
  score_is_for_side_to_move C ->
  analyzed_positions (self s) !! _cache_key fen (c_uci move_data) = None ->
  from_uci C (c_uci move_data) = Some move ->
  push C board move = Some after_move ->
  get_best_response C after_move 40
    (append_log [Print d (MoveHeader (i + 1) n (c_san move_data) (c_games move_data));
                 Print d FindingBestResponse] s)
    = (Ret (Some best), s2) ->
  from_uci C (r_uci best) = Some reply ->
  push C after_move reply = Some after_reply ->
  exists (info : PovScore) (w1 w2 : World C) (analysed : Board C)
         (s3 : Sys C) (record : LineRecord),
    push C after_move (r_move best) = Some analysed /\
    engine_analyse C w1 analysed 20 = (Some info, w2) /\
    turn C after_move = negb (turn C board) /\
    r_evaluation best = Qmake (pov info (turn C after_move)) 100 /\
    pov info (turn C after_move) = - pov info (turn C board) /\
    process_candidate C recurse board move_history d fen n i move_data s =
      recurse after_reply
        (move_history ++ [(move, c_san move_data); (reply, r_san best)])
        (S d) s3 /\
    analyzed_positions (self s3) !! _cache_key fen (c_uci move_data) =
      Some {| br_uci := r_uci best; br_san := r_san best;
              br_evaluation := r_evaluation best |} /\
    last (all_variations (self s3)) = Some record /\
    lr_evaluation record = r_evaluation best.
Proof.
  intros Halt Hside Hkey Hmove Hpush Hbest Hreply Hpush2.
  destruct (get_best_response_spec after_move 40
    (append_log [Print d (MoveHeader (i + 1) n (c_san move_data) (c_games move_data));
                 Print d FindingBestResponse] s))
    as (r & w2 & evs & Heq & _ & _ & Hdetail).
  rewrite Hbest in Heq. injection Heq as <- _.
  destruct (Hdetail best eq_refl)
    as (w1 & analysed & info & _ & Hpush3 & Hinfo & _ & _ & Heval).
  pose proof (Halt _ _ _ Hpush) as Hturn1.
  pose proof (Halt _ _ _ Hpush3) as Hturn2.
  pose proof (Hside _ _ _ _ _ Hinfo) as Hpov.
  assert (Hsame : pov_turn info = turn C board).
  { rewrite Hpov, Hturn2, Hturn1. apply negb_involutive. }
  assert (Hfor : pov info (turn C board) = default 0 (relative info)).
  { unfold pov. rewrite Hsame. by rewrite Bool.eqb_reflx. }
  assert (Hagainst : pov info (turn C after_move) = - default 0 (relative info)).
  { unfold pov. rewrite Hsame, Hturn1. by destruct (turn C board). }
  exists info, w1, w2, analysed. eexists _, _.
  split; [exact Hpush3|]. split; [exact Hinfo|]. split; [exact Hturn1|].
  split; [by rewrite Hagainst|]. split; [by rewrite Hagainst, Hfor|].
  replace (move_history ++ [(move, c_san move_data); (reply, r_san best)])
    with ((move_history ++ [(move, c_san move_data)]) ++ [(reply, r_san best)])
    by (by rewrite <- app_assoc).
  split; [by eapply process_candidate_fresh|].
  simpl. rewrite lookup_insert_eq, last_snoc. done.
Qed.

(** The rate limit of OpeningAnalyze.py: whatever the request did, and
    also when building the list raised, the call ends with the half-second
    sleep, and it made one request. *)
Lemma get_lichess_moves_always_sleeps board top_n s :
  exists evs,
    log (snd (get_lichess_moves C board top_n s)) =
      log s ++ HttpGet (board_fen C board) top_n :: evs ++ [Sleep (1 # 2)] /\
    count is_http_get evs = 0%nat /\ count is_sleep evs = 0%nat.
Proof.
  rewrite get_lichess_moves_eq. cbv zeta.
  destruct (requests_get C (world s) (board_fen C board) top_n) as [[|data] w]; simpl.
  - by eexists [_].
  - by exists [].
Qed.

(** C8 (defect in chesser2.py).  The earlier [get_lichess_moves] makes its
    request and returns from inside the [try] statement, on success and on
    a failed request alike: it never reaches the sleep that follows, so
    the log of a call has the request and no sleep. *)
Theorem chesser2_get_lichess_moves_never_sleeps board top_n s :
  let s' := snd (Chesser2.get_lichess_moves C board top_n s) in
  exists evs,
    log s' = log s ++ HttpGet (board_fen C board) top_n :: evs /\
    count is_sleep evs = 0%nat /\
    fst (Chesser2.get_lichess_moves C board top_n s) <> Ret None.
Proof.
  cbv zeta.
  unfold Chesser2.get_lichess_moves, Chesser2.try_statement, try_except,
    fetch_moves, bind, call, print, emit, get_self, of_sum, ret, raise,
    append_log, set_world; simpl.
  destruct (requests_get C (world s) (board_fen C board) top_n) as [[|data] w]; simpl.
  - eexists [_]. rewrite <- app_assoc. by repeat split.
  - destruct (popular_moves _ _ _) as [e|moves] eqn:Hmoves; simpl.
    + rewrite (popular_moves_error _ _ _ _ Hmoves). simpl. by exists [].
    + by exists [].
Qed.

(** Where loading is harmless.  A missing file leaves the analyzer as it
    is; so does a file that is not JSON, with a warning; and a document
    that lacks keys is loaded with the defaults. *)
Lemma load_progress_missing file s :
  disk s !! file = None ->
  load_progress C file s = (Ret tt, append_log [Print 0 NoPreviousProgress] s).
Proof. intros Hfile. unfold load_progress. by rewrite Hfile. Qed.

Lemma load_progress_not_json file s :
  disk s !! file = Some NotJson ->
  load_progress C file s =
  (Ret tt, append_log [Print 0 (CouldNotLoadProgress JSONDecodeError)] s).
Proof. intros Hfile. unfold load_progress. by rewrite Hfile. Qed.

Lemma load_progress_defaults file s :
  disk s !! file =
    Some (JsonObject {| doc_analyzed_positions := None;
                        doc_fully_explored_fens := None;
                        doc_variation_counter := None;
                        doc_all_variations := None |}) ->
  exists s',
    load_progress C file s = (Ret tt, s') /\
    self s' = init (min_games (self s)).
Proof.
  intros Hfile. unfold load_progress. rewrite Hfile.
  eexists. split; [reflexivity|]. simpl.
  unfold init, set_all_variations, set_variation_counter,
    set_fully_explored_fens, set_analyzed_positions; simpl. done.
Qed.

(** Where it is not: [load_progress] raises to its caller when the
    progress file exists and cannot be opened, and when it holds JSON that
    is not an object; neither exception is among those the [except] clause
    names. *)
Lemma load_progress_can_raise file s :
  (disk s !! file = Some Unreadable ->
   load_progress C file s = (Raise OSError, s)) /\
  (disk s !! file = Some JsonNotObject ->
   load_progress C file s = (Raise AttributeError, s)).
Proof.
  split; intros Hfile; unfold load_progress; by rewrite Hfile.
Qed.

End Claims.

(** * Concrete runs *)

Lemma scenario_sides_alternate : sides_alternate Scenario.world.
Proof.
  intros b b' m [= <-]. simpl. rewrite length_app. simpl.
  rewrite Nat.add_1_r, Nat.even_succ. by rewrite <- Nat.negb_even.
Qed.

Lemma scenario_score_is_for_side_to_move : score_is_for_side_to_move Scenario.world.
Proof. by intros w w' b depth info [= <- _]. Qed.

Example first_run_records :
  map (fun r => (lr_number r, lr_moves r, lr_depth r))
      (all_variations (self Scenario.after_first_run)) =
  [(1, "1. e2e4 e7e5"%string, 2%nat); (2, "1. d2d4 d7d5"%string, 2%nat)].
Proof. vm_compute. reflexivity. Qed.


(** C3, counterexample.  In the scenario White plays 1. e4, the engine
    replies 1... e5 and scores the resulting position +20 centipawns for
    White, who is to move there and was to move before the candidate; the
    evaluation handed back is -0.20, not +0.20. *)
Lemma evaluation_is_against_candidate_mover :
  sides_alternate Scenario.world /\
  score_is_for_side_to_move Scenario.world /\
  ~ evaluation_is_for_candidate_mover Scenario.world.
Proof.
  split; [exact scenario_sides_alternate|].
  split; [exact scenario_score_is_for_side_to_move|].
  intros Hclaim.
  assert (Heval :
    Qeq (r_evaluation Scenario.reply_to_e4)
        (Qmake (pov {| relative := Some 20; pov_turn := true |}
                    (turn Scenario.world [])) 100)).
  { eapply (Hclaim [] "e2e4"%string ["e2e4"%string]
              ["e2e4"%string; "e7e5"%string] (Scenario.fresh [])
              (snd (get_best_response Scenario.world ["e2e4"%string] 40
                      (Scenario.fresh [])))
              Scenario.reply_to_e4 [] []).
    - reflexivity.
    - vm_compute. reflexivity.
    - reflexivity.
    - reflexivity.
    - reflexivity. }
  vm_compute in Heval. discriminate Heval.
Qed.


(** C4, witness: the starting position after the first run. *)
Lemma explored_position_returns_at_once_witness :
  board_fen Scenario.world [] ∈ fully_explored_fens (self Scenario.after_first_run) /\
  exists s' : Sys Scenario.world,
    analyze_position_recursive Scenario.world 1 [] [] 0 Scenario.after_first_run
      = (Ret tt, s') /\
    self s' = self Scenario.after_first_run /\
    world s' = world Scenario.after_first_run /\
    disk s' = disk Scenario.after_first_run /\
    log s' = log Scenario.after_first_run ++
      [Print 0 (SkippingFullyExplored
                  (get_move_path_string ([] : History Scenario.world)))].
Proof.
  assert (Hin : board_fen Scenario.world [] ∈
            fully_explored_fens (self Scenario.after_first_run))
    by (vm_compute; reflexivity).
  split; [exact Hin|].
  exact (explored_position_returns_at_once (C := Scenario.world) 0 [] [] 0 Scenario.after_first_run Hin).
Defined.


(** C10, witness: the request at the starting position fails. *)
Lemma failed_query_prunes_the_position_witness :
  let s := Scenario.fresh [HttpFailure] in
  (board_fen Scenario.world [] ∉ fully_explored_fens (self s)) /\
  requests_get Scenario.world (world s) (board_fen Scenario.world []) 5
    = (HttpFailure, []) /\
  exists s' : Sys Scenario.world,
    analyze_position_recursive Scenario.world 1 [] [] 0 s = (Ret tt, s') /\
    board_fen Scenario.world [] ∈ fully_explored_fens (self s') /\
    disk s' !! progress_file = Some (JsonObject (snapshot (self s'))).
Proof.
  cbv zeta.
  assert (Hnot : board_fen Scenario.world [] ∉
            fully_explored_fens (self (Scenario.fresh [HttpFailure])))
    by (vm_compute; discriminate).
  assert (Hreq : requests_get Scenario.world (world (Scenario.fresh [HttpFailure]))
                   (board_fen Scenario.world []) 5 = (HttpFailure, []))
    by reflexivity.
  split; [exact Hnot|]. split; [exact Hreq|].
  destruct (failed_query_prunes_the_position (C := Scenario.world) 0 [] [] 0
              (Scenario.fresh [HttpFailure]) [] Hnot Hreq)
    as (s' & _ & Hrun & Hin & Hdisk & _).
  exists s'. exact (conj Hrun (conj Hin Hdisk)).
Defined.



(** C2, witness: the candidate 1. e4 met again after the first run, and
    the first run itself. *)
Lemma records_only_on_the_cold_path_witness :
  let e4 := Scenario.candidate "e2e4" 500 300 200 in
  let recurse := analyze_position_recursive Scenario.world 1 in
  let s := Scenario.after_first_run in
  analyzed_positions (self s) !! _cache_key "" (c_uci e4)
    = Some Scenario.cached_reply_to_e4 /\
  (exists after_reply history (warm : Sys Scenario.world),
      process_candidate Scenario.world recurse [] [] 0 "" 4 0 e4 s
        = recurse after_reply history 1%nat warm /\
      self warm = self s) /\
  exists new : list LineRecord,
    all_variations (self s) = [] ++ new /\
    Z.of_nat (length new) <= Z.of_nat (size (analyzed_positions (self s))) - 0.
Proof.
  cbv zeta.
  assert (Hkey : analyzed_positions (self Scenario.after_first_run) !!
                   _cache_key "" (c_uci (Scenario.candidate "e2e4" 500 300 200))
                 = Some Scenario.cached_reply_to_e4)
    by (vm_compute; reflexivity).
  split; [exact Hkey|].
  destruct (records_only_on_the_cold_path (C := Scenario.world)
              (analyze_position_recursive Scenario.world 1) [] [] 0 "" 4 0
              (Scenario.candidate "e2e4" 500 300 200) Scenario.after_first_run
              Scenario.cached_reply_to_e4
              5 [] [] 0 (Scenario.fresh [Scenario.opening]) Hkey)
    as [Hwarm (new & evs & Hvars & _ & _ & Hsize & _)].
  split.
  - destruct Hwarm as [(e & Hraise)|(after_reply & history & Hrun)].
    + vm_compute in Hraise. discriminate Hraise.
    + exists after_reply, history. eexists. split; [exact Hrun|reflexivity].
  - exists new. split; [exact Hvars|exact Hsize].
Defined.

(** C3, witness: the fresh reply to 1. e4 in the scenario. *)
Lemma fresh_evaluation_is_for_the_replying_side_witness :
  let e4 := Scenario.candidate "e2e4" 500 300 200 in
  let recurse := analyze_position_recursive Scenario.world 1 in
  let s := Scenario.fresh [] in
  let s2 := snd (get_best_response Scenario.world ["e2e4"%string] 40
                   (Scenario.asking 0 4 0 e4 s)) in
  sides_alternate Scenario.world /\
  score_is_for_side_to_move Scenario.world /\
  analyzed_positions (self s) !! _cache_key "" (c_uci e4) = None /\
  from_uci Scenario.world (c_uci e4) = Some "e2e4"%string /\
  push Scenario.world [] "e2e4"%string = Some ["e2e4"%string] /\
  get_best_response Scenario.world ["e2e4"%string] 40 (Scenario.asking 0 4 0 e4 s)
    = (Ret (Some Scenario.reply_to_e4), s2) /\
  from_uci Scenario.world (r_uci Scenario.reply_to_e4) = Some "e7e5"%string /\
  push Scenario.world ["e2e4"%string] "e7e5"%string
    = Some ["e2e4"%string; "e7e5"%string] /\
  exists info : PovScore,
    r_evaluation Scenario.reply_to_e4
      = Qmake (pov info (turn Scenario.world ["e2e4"%string])) 100 /\
    pov info (turn Scenario.world ["e2e4"%string])
      = - pov info (turn Scenario.world []).
Proof.
  cbv zeta.
  assert (Hkey : analyzed_positions (self (Scenario.fresh [])) !!
                   _cache_key "" (c_uci (Scenario.candidate "e2e4" 500 300 200))
                 = None) by (vm_compute; reflexivity).
  assert (Hmove : from_uci Scenario.world
                    (c_uci (Scenario.candidate "e2e4" 500 300 200))
                  = Some "e2e4"%string) by reflexivity.
  assert (Hpush : push Scenario.world [] "e2e4"%string = Some ["e2e4"%string])
    by reflexivity.
  assert (Hbest : get_best_response Scenario.world ["e2e4"%string] 40
                    (Scenario.asking 0 4 0 (Scenario.candidate "e2e4" 500 300 200)
                       (Scenario.fresh []))
                  = (Ret (Some Scenario.reply_to_e4),
                     snd (get_best_response Scenario.world ["e2e4"%string] 40
                            (Scenario.asking 0 4 0
                               (Scenario.candidate "e2e4" 500 300 200)
                               (Scenario.fresh [])))))
    by (vm_compute; reflexivity).
  assert (Hreply : from_uci Scenario.world (r_uci Scenario.reply_to_e4)
                   = Some "e7e5"%string) by reflexivity.
  assert (Hpush2 : push Scenario.world ["e2e4"%string] "e7e5"%string
                   = Some ["e2e4"%string; "e7e5"%string]) by reflexivity.
  repeat (split; [first [exact scenario_sides_alternate
                        |exact scenario_score_is_for_side_to_move
                        |assumption]|]).
  destruct (fresh_evaluation_is_for_the_replying_side (C := Scenario.world)
              (analyze_position_recursive Scenario.world 1) [] [] 0 "" 4 0
              (Scenario.candidate "e2e4" 500 300 200) (Scenario.fresh [])
              "e2e4"%string ["e2e4"%string] Scenario.reply_to_e4 _
              "e7e5"%string ["e2e4"%string; "e7e5"%string]
              scenario_sides_alternate scenario_score_is_for_side_to_move
              Hkey Hmove Hpush Hbest Hreply Hpush2)
    as (info & w1 & w2 & analysed & s3 & record & _ & _ & _ & Heval & Hsign & _).
  exists info. exact (conj Heval Hsign).
Defined.

(** C9, at the failing inputs: a progress file that cannot be opened, and
    one that holds a JSON array.  In both cases [load_progress] raises. *)
Theorem load_progress_raises_on_unusable_checkpoint :
  fst (load_progress Scenario.world progress_file
         (Scenario.with_progress_file Unreadable)) = Raise OSError /\
  fst (load_progress Scenario.world progress_file
         (Scenario.with_progress_file JsonNotObject)) = Raise AttributeError.
Proof. split; vm_compute; reflexivity. Qed.

(** * Further properties *)

(** ** The two queries, the checkpoint and the cache key *)

Section Queries.
Context {C : Collaborators}.
Implicit Types (s : Sys C) (board : Board C).

Lemma popular_moves_ok mg data : forall acc moves,
  popular_moves mg acc data = inr moves ->
  exists new, moves = acc ++ new /\
    Forall2 reported_as (List.filter (qualifies mg) data) new.
Proof.
  induction data as [|md rest IH]; intros acc moves; simpl.
  - intros [= <-]. exists []. by rewrite app_nil_r.
  - unfold append_if_popular, qualifies.
    destruct (mg <=? total_games md) eqn:Hq.
    + destruct (md_uci md) as [u|] eqn:Hu; [|done].
      destruct (md_san md) as [sn|] eqn:Hs; [|done].
      intros Hrest. destruct (IH _ _ Hrest) as (new & -> & Hall).
      eexists (_ :: new). rewrite <- app_assoc. split; [done|].
      constructor; [|done]. by repeat split.
    + intros Hrest. destruct (IH _ _ Hrest) as (new & -> & Hall). by exists new.
Qed.

Lemma popular_moves_raises mg data : forall acc,
  (exists e, popular_moves mg acc data = inl e) <->
  Exists (fun md => qualifies mg md = true /\ lacks_key md = true) data.
Proof.
  induction data as [|md rest IH]; intros acc; simpl.
  - split; [by intros [e ?]|by intros ?%Exists_nil].
  - rewrite Exists_cons. unfold append_if_popular, qualifies, lacks_key in *.
    destruct (mg <=? total_games md) eqn:Hq.
    + destruct (md_uci md) as [u|] eqn:Hu.
      * destruct (md_san md) as [sn|] eqn:Hs.
        -- rewrite IH. intuition discriminate.
        -- split; [by left|by eexists].
      * split; [by left|by eexists].
    + rewrite IH. intuition discriminate.
Qed.

Lemma length_py_prefix {A} (n : Z) (l : list A) :
  0 <= n -> (length (py_prefix n l) <= Z.to_nat n)%nat.
Proof.
  intros Hn. unfold py_prefix. rewrite (proj2 (Z.leb_le 0 n) Hn), length_take. lia.
Qed.

Lemma length_filter_le {A} (p : A -> bool) (l : list A) :
  (length (List.filter p l) <= length l)%nat.
Proof. induction l as [|x l IH]; simpl; [lia|]. destruct (p x); simpl; lia. Qed.

(** X1. When [get_lichess_moves] returns, its result lists, in the explorer's
    order, those of the first [top_n] entries of the answer's 'moves' whose
    white + draws + black reaches [min_games], each with its 'uci' and 'san'
    and with that sum as 'games'; it is empty when the request failed or the
    answer has no 'moves'.  So every returned move has at least [min_games]
    games, there are at most [top_n] of them, and the analyzer object and
    the disk are untouched. *)
Theorem get_lichess_moves_returns_the_popular_prefix board top_n s moves s' :
  get_lichess_moves C board top_n s = (Ret moves, s') ->
  exists (response : http_outcome) (w : World C),
    requests_get C (world s) (board_fen C board) top_n = (response, w) /\
    match response with
    | HttpFailure => moves = []
    | HttpJson data =>
      Forall2 reported_as
        (List.filter (qualifies (min_games (self s)))
           (py_prefix top_n (default [] data))) moves
    end /\
    Forall (fun c => min_games (self s) <= c_games c /\
                     c_games c = c_white_wins c + c_draws c + c_black_wins c) moves /\
    (0 <= top_n -> (length moves <= Z.to_nat top_n)%nat) /\
    self s' = self s /\ disk s' = disk s.
Proof.
  rewrite get_lichess_moves_eq. cbv zeta.
  destruct (requests_get C (world s) (board_fen C board) top_n) as [[|data] w].
  - intros [= <- <-]. exists HttpFailure, w. repeat split; try done.
    simpl. lia.
  - destruct (popular_moves _ _ _) as [e|found] eqn:Hfound; [done|].
    intros [= <- <-]. exists (HttpJson data), w.
    apply popular_moves_ok in Hfound as (new & -> & Hall). simpl in *.
    split; [done|]. split; [done|]. split; [|split; [|done]].
    + assert (Hq : Forall (fun md => qualifies (min_games (self s)) md = true)
                     (List.filter (qualifies (min_games (self s)))
                        (py_prefix top_n (default [] data)))).
      { apply List.Forall_forall. by intros md [_ Hmd]%List.filter_In. }
      induction Hall as [|md c mds cs (_ & _ & Hg & Hw & Hd & Hb) _ IH];
        [constructor|].
      apply Forall_cons in Hq as [Hmd Hq]. constructor; [|by apply IH].
      unfold qualifies in Hmd. apply Z.leb_le in Hmd.
      rewrite Hg, Hw, Hd, Hb. split; [done|reflexivity].
    + intros Hn. rewrite <- (Forall2_length _ _ _ Hall).
      etrans; [apply length_filter_le|by apply length_py_prefix].
Qed.

Lemma popular_moves_key_error mg data : forall acc e,
  popular_moves mg acc data = inl e -> e = KeyError "uci" \/ e = KeyError "san".
Proof.
  induction data as [|md rest IH]; intros acc e; simpl; [done|].
  destruct (append_if_popular mg acc md) as [e'|acc'] eqn:Hstep; [|by apply IH].
  intros [= <-]. unfold append_if_popular in Hstep.
  destruct (mg <=? total_games md); [|done].
  destruct (md_uci md); [|injection Hstep as <-; by left].
  destruct (md_san md); [done|injection Hstep as <-; by right].
Qed.


Lemma get_best_response_eq board depth s :
  get_best_response C board depth s =
  let (result, w1) := engine_play C (world s) board depth in
  let s1 := set_world w1 (append_log [EnginePlay (board_fen C board) depth] s) in
  match result with
  | None =>
    (Ret None, append_log [Print 0 (ErrorGettingBestResponse EngineError)] s1)
  | Some None => (Ret None, s1)
  | Some (Some mv) =>
    match push C board mv with
    | None =>
      (Ret None, append_log [Print 0 (ErrorGettingBestResponse PushError)] s1)
    | Some temp_board =>
      let (info, w2) := engine_analyse C w1 temp_board 20 in
      let s2 := set_world w2
                  (append_log [EngineAnalyse (board_fen C temp_board) 20] s1) in
      match info with
      | None =>
        (Ret None, append_log [Print 0 (ErrorGettingBestResponse EngineError)] s2)
      | Some info =>
        match board_san C board mv with
        | None =>
          (Ret None,
           append_log [Print 0 (ErrorGettingBestResponse EngineError)] s2)
        | Some san =>
          (Ret (Some (Build_Response C mv (move_uci C mv) san
                        (Qmake (- default 0 (relative info)) 100))), s2)
        end
      end
    end
  end.
Proof.
  unfold get_best_response, try_except, bind, call, print, emit, or_raise,
    ret, raise, append_log, set_world; simpl.
  destruct (engine_play C (world s) board depth) as [[[mv|]|] w1]; simpl; try done.
  destruct (push C board mv) as [temp|]; simpl; [|done].
  destruct (engine_analyse C w1 temp 20) as [[info|] w2]; simpl; [|done].
  by destruct (board_san C board mv).
Qed.

Lemma get_best_response_returns board depth s :
  exists (r : option (Response C)) s' (evs : list event),
    get_best_response C board depth s = (Ret r, s') /\
    self s' = self s /\ disk s' = disk s /\
    log s' = log s ++ EnginePlay (board_fen C board) depth :: evs /\
    count is_engine_play evs = 0%nat /\
    (count is_engine_call evs <= 1)%nat /\
    count is_http_get evs = 0%nat /\ count is_sleep evs = 0%nat /\
    (r = None \/ Forall (fun e => is_print e = false) evs).
Proof.
  rewrite get_best_response_eq.
  destruct (engine_play C (world s) board depth) as [[[mv|]|] w1]; cbv zeta;
    [destruct (push C board mv) as [temp|];
     [destruct (engine_analyse C w1 temp 20) as [[info|] w2];
      [destruct (board_san C board mv) as [san|]|]|]| |];
    eexists _, _, _; (split; [reflexivity|]); simpl;
    rewrite <- ?app_assoc; simpl;
    (split; [reflexivity|]); (split; [reflexivity|]); (split; [reflexivity|]);
    simpl; repeat split; try lia;
    first [by left | right; by repeat constructor].
Qed.

(** X3. [get_best_response] always returns, with a reply or [None]: whatever
    the engine and the rules library do is caught.  It leaves the analyzer
    object and the disk alone, calls [engine.play] once, on the given board
    at the given depth, and after it [engine.analyse] at most once; it sends
    no request and does not sleep, and it prints only when it returns
    [None]. *)
Theorem get_best_response_never_raises board depth s :
  exists (r : option (Response C)) s' (evs : list event),
    get_best_response C board depth s = (Ret r, s') /\
    self s' = self s /\ disk s' = disk s /\
    log s' = log s ++ EnginePlay (board_fen C board) depth :: evs /\
    count is_engine_play evs = 0%nat /\
    (count is_engine_call evs <= 1)%nat /\
    count is_http_get evs = 0%nat /\ count is_sleep evs = 0%nat /\
    (r = None \/ Forall (fun e => is_print e = false) evs).
Proof. apply get_best_response_returns. Qed.

(** X4. [get_best_response] returns a reply exactly when [engine.play] names
    a move, the move can be pushed on a copy of the board, [engine.analyse]
    answers for the board after it and [board.san] writes the move; the reply
    then carries that move, its UCI and SAN, and as evaluation the relative
    score (0 when there is none) negated and divided by 100. *)
Theorem get_best_response_reply_iff board depth s (best : Response C) :
  fst (get_best_response C board depth s) = Ret (Some best) <->
  exists (w1 w2 : World C) (after_reply : Board C) (info : PovScore),
    engine_play C (world s) board depth = (Some (Some (r_move best)), w1) /\
    push C board (r_move best) = Some after_reply /\
    engine_analyse C w1 after_reply 20 = (Some info, w2) /\
    board_san C board (r_move best) = Some (r_san best) /\
    r_uci best = move_uci C (r_move best) /\
    r_evaluation best = Qmake (- default 0 (relative info)) 100.
Proof.
  rewrite get_best_response_eq. split.
  - destruct (engine_play C (world s) board depth) as [[[mv|]|] w1]; cbv zeta;
      try done.
    destruct (push C board mv) as [temp|] eqn:Hpush; [|done].
    destruct (engine_analyse C w1 temp 20) as [[info|] w2] eqn:Han; [|done].
    destruct (board_san C board mv) as [san|] eqn:Hsan; [|done].
    simpl. intros [= <-]. simpl. by exists w1, w2, temp, info.
  - intros (w1 & w2 & temp & info & -> & Hpush & Han & Hsan & Huci & Heval).
    cbv zeta. rewrite Hpush, Han, Hsan. simpl.
    destruct best as [mv u sn ev]. simpl in *. by subst.
Qed.

(** X5. What [save_progress] writes, [load_progress] reads back: cache,
    explored set, counter and records are those of the analyzer that saved,
    even when another analyzer object loads the file.  The threshold
    [min_games] is not part of the checkpoint: it stays the loader's. *)
Theorem save_then_load_restores file (other : Analyzer) s :
  exists s',
    load_progress C file (set_self other (snd (save_progress C file s)))
      = (Ret tt, s') /\
    analyzed_positions (self s') = analyzed_positions (self s) /\
    fully_explored_fens (self s') = fully_explored_fens (self s) /\
    variation_counter (self s') = variation_counter (self s) /\
    all_variations (self s') = all_variations (self s) /\
    min_games (self s') = min_games other /\
    world s' = world s /\
    disk s' = disk (snd (save_progress C file s)).
Proof.
  destruct (load_progress_snapshot (C := C) file (self s)
              (set_self other (snd (save_progress C file s))))
    as (s' & Hload & Hc & He & Hn & Hv & Hm & Hw & Hd & _).
  { simpl. by rewrite lookup_insert_eq. }
  exists s'. by repeat split.
Qed.


Lemma occurs_false_head a b (str : string) :
  occurs a (String b str) = false -> a <> b /\ occurs a str = false.
Proof.
  simpl. intros [Hab Hs]%orb_false_elim. split; [|done].
  intros ->. by rewrite Ascii.eqb_refl in Hab.
Qed.

(** X7. [_cache_key] tells positions and moves apart: as long as the FENs
    hold no '|', equal keys come from the same FEN and the same move. *)
Theorem cache_key_injective fen1 uci1 fen2 uci2 :
  occurs "|" fen1 = false -> occurs "|" fen2 = false ->
  _cache_key fen1 uci1 = _cache_key fen2 uci2 ->
  fen1 = fen2 /\ uci1 = uci2.
Proof.
  unfold _cache_key. revert fen2.
  induction fen1 as [|a fen1 IH]; intros [|b fen2] H1 H2; simpl.
  - intros [= Hu]. by subst.
  - intros [= Hb _]. by apply occurs_false_head in H2 as [? _].
  - intros [= Ha _]. by apply occurs_false_head in H1 as [? _].
  - intros [= Hab Hrest].
    apply occurs_false_head in H1 as [_ H1]. apply occurs_false_head in H2 as [_ H2].
    destruct (IH fen2 H1 H2 Hrest) as [Hf Hu]. by subst.
Qed.
End Queries.

(** ** Invariants of the traversal *)

Section Invariants.
Context {C : Collaborators}.
Implicit Types (s : Sys C) (board : Board C) (move_history : History C).

Lemma keeps_bind (R : Sys C -> Sys C -> Prop) {A B} (m : M C A) (k : A -> M C B) :
  (forall s1 s2 s3, R s1 s2 -> R s2 s3 -> R s1 s3) ->
  keeps R m -> (forall a, keeps R (k a)) -> keeps R (bind m k).
Proof.
  intros Htrans Hm Hk s. unfold bind. specialize (Hm s).
  destruct (m s) as [[a| |] s1]; simpl in *; try done.
  eapply Htrans; [done|apply Hk].
Qed.

Lemma keeps_for_each (R : Sys C -> Sys C -> Prop) {A}
    (body : nat -> A -> M C unit) i (l : list A) :
  (forall s, R s s) ->
  (forall s1 s2 s3, R s1 s2 -> R s2 s3 -> R s1 s3) ->
  (forall j x, keeps R (body j x)) -> keeps R (for_each C body i l).
Proof.
  intros Hrefl Htrans Hbody. revert i. induction l as [|x l IH]; intros i; simpl.
  - intros s. apply Hrefl.
  - apply keeps_bind; [done|apply Hbody|]. intros _. apply IH.
Qed.

Section Generic.
Context (R : Sys C -> Sys C -> Prop) (H : History C -> Prop).
Hypothesis H_extend : forall h a b, H h -> H ((h ++ [a]) ++ [b]).
Hypothesis R_refl : forall s, R s s.
Hypothesis R_trans : forall s1 s2 s3, R s1 s2 -> R s2 s3 -> R s1 s3.
Hypothesis R_print : forall s d m, R s (append_log [Print d m] s).
Hypothesis R_query : forall board n s, n = 5 -> R s (snd (get_lichess_moves C board n s)).
Hypothesis R_eval : forall board d s, R s (snd (get_best_response C board d s)).
Hypothesis R_stored : forall key best s,
  analyzed_positions (self s) !! key = None -> R s (reply_stored key best s).
Hypothesis R_line : forall key best d h a b md s,
  H h ->
  analyzed_positions (self s) !! key = None ->
  R s (line_saved d ((h ++ [a]) ++ [b]) best md (reply_stored key best s)).
Hypothesis R_mark : forall fen s, R s (snd (mark_fully_explored C fen s)).
Hypothesis R_save : forall file s, R s (snd (save_progress C file s)).

Lemma R_prints s d m1 m2 : R s (append_log [Print d m1; Print d m2] s).
Proof.
  rewrite <- (append_log_append_log [Print d m1] [Print d m2]).
  eapply R_trans; apply R_print.
Qed.

Lemma keeps_process_candidate recurse board move_history d fen n i move_data :
  H move_history ->
  (forall b h k, H h -> keeps R (recurse b h k)) ->
  keeps R (process_candidate C recurse board move_history d fen n i move_data).
Proof.
  intros Hh Hrec s.
  destruct (process_candidate_iteration recurse board move_history d fen n i
              move_data s)
    as [cached move after_move reply after_reply Hkey _ _ _ _
       |cached e Hkey _
       |e Hkey _
       |move after_move s1 s2 Hkey _ _ -> Hbest
       |move after_move s1 s2 best reply after_reply stored history
          Hkey _ _ -> Hbest -> _ _ ->
       |move after_move s1 s2 best stored e s3 Hkey _ _ -> Hbest -> Hs3].
  - eapply R_trans; [apply R_print|by apply Hrec, H_extend].
  - apply R_print.
  - apply R_prints.
  - simpl. eapply R_trans; [apply R_prints|].
    eapply R_trans; [|apply R_print].
    pose proof (R_eval after_move 40 (append_log [Print d (MoveHeader (i + 1) n (c_san move_data) (c_games move_data)); Print d FindingBestResponse] s)) as He.
    by rewrite Hbest in He.
  - eapply R_trans; [|by apply Hrec, H_extend].
    eapply R_trans; [apply R_prints|].
    pose proof (R_eval after_move 40 (append_log [Print d (MoveHeader (i + 1) n (c_san move_data) (c_games move_data)); Print d FindingBestResponse] s)) as He.
    rewrite Hbest in He. simpl in He.
    eapply R_trans; [exact He|]. eapply R_trans; [apply R_print|].
    apply R_line; [done|]. simpl.
    apply get_best_response_step in Hbest as (-> & _). done.
  - eapply R_trans; [apply R_prints|].
    pose proof (R_eval after_move 40 (append_log [Print d (MoveHeader (i + 1) n (c_san move_data) (c_games move_data)); Print d FindingBestResponse] s)) as He.
    rewrite Hbest in He. simpl in He.
    eapply R_trans; [exact He|]. eapply R_trans; [apply R_print|].
    assert (Hnone : analyzed_positions (self (append_log [Print d (BestResponseIs (r_san best) (r_evaluation best))] s2)) !! _cache_key fen (c_uci move_data) = None).
    { simpl. apply get_best_response_step in Hbest as (-> & _). done. }
    destruct Hs3 as [[_ ->]|(reply & history & _ & _ & -> & ->)].
    + by apply R_stored.
    + by apply R_line.
Qed.

Theorem keeps_analyze fuel board move_history d :
  H move_history ->
  keeps R (analyze_position_recursive C fuel board move_history d).
Proof.
  revert board move_history d.
  induction fuel as [|fuel IH]; intros board move_history d Hh; simpl.
  - intros s. apply R_refl.
  - apply keeps_bind; [done|intros s; apply R_refl|]. intros a.
    case_decide.
    + intros s. apply R_print.
    + apply keeps_bind; [done|intros s; apply R_print|]. intros _.
      apply keeps_bind; [done|intros s; by apply R_query|].
      intros [|c moves].
      * apply keeps_bind; [done|intros s; apply R_print|intros _].
        apply keeps_bind; [done|intros s; apply R_mark|intros _].
        intros s; apply R_save.
      * apply keeps_bind; [done|intros s; apply R_print|intros _].
        apply keeps_bind; [done| |intros _].
        -- apply keeps_for_each; [done|done|]. intros j x.
           apply keeps_process_candidate; [done|]. intros b h k. apply IH.
        -- apply keeps_bind; [done|intros s; apply R_mark|intros _].
           intros s; apply R_save.
Qed.
End Generic.

Lemma keep_app p (l1 l2 : list event) : keep p (l1 ++ l2) = keep p l1 ++ keep p l2.
Proof.
  induction l1 as [|e l1 IH]; simpl; [done|]. destruct (p e); simpl; by rewrite IH.
Qed.

Lemma keep_rate_none (evs : list event) :
  count is_http_get evs = 0%nat -> count is_sleep evs = 0%nat ->
  keep is_rate_event evs = [].
Proof.
  induction evs as [|e evs IH]; simpl; [done|]. unfold is_rate_event.
  destruct (is_http_get e), (is_sleep e); simpl; done.
Qed.

(** *** Pacing *)

Lemma paced_refl s : paced s s.
Proof. exists [], []. by rewrite app_nil_r. Qed.

Lemma paced_trans s1 s2 s3 : paced s1 s2 -> paced s2 s3 -> paced s1 s3.
Proof.
  intros (e1 & f1 & Hl1 & Hk1) (e2 & f2 & Hl2 & Hk2).
  exists (e1 ++ e2), (f1 ++ f2).
  rewrite Hl2, Hl1, app_assoc, keep_app, Hk1, Hk2, flat_map_app. done.
Qed.

Lemma paced_quiet s s' evs :
  log s' = log s ++ evs -> keep is_rate_event evs = [] -> paced s s'.
Proof. intros Hl Hk. by exists evs, []. Qed.

Lemma paced_query_step board s :
  paced s (snd (get_lichess_moves C board 5 s)).
Proof.
  rewrite get_lichess_moves_eq. cbv zeta.
  destruct (requests_get C (world s) (board_fen C board) 5) as [[|data] w];
    simpl; eexists _, [board_fen C board]; by split.
Qed.

Lemma paced_eval_step board d s :
  paced s (snd (get_best_response C board d s)).
Proof.
  destruct (get_best_response_returns board d s)
    as (r & s' & evs & Heq & _ & _ & Hlog & _ & _ & Hget & Hsleep & _).
  rewrite Heq. simpl. eapply paced_quiet; [exact Hlog|].
  simpl. by apply keep_rate_none.
Qed.

(** X8. Whatever a call of [analyze_position_recursive] does, and however it
    ends, every request it sends to the explorer asks for 5 moves and is
    followed by the half-second sleep before the next request: among the
    requests and sleeps of its log, the two alternate. *)
Theorem every_request_is_followed_by_the_sleep fuel board move_history d s :
  exists (evs : list event) (fens : list string),
    log (snd (analyze_position_recursive C fuel board move_history d s))
      = log s ++ evs /\
    keep is_rate_event evs = flat_map paced_query fens.
Proof.
  apply (keeps_analyze paced (fun _ => True)); try done.
  - apply paced_refl.
  - apply paced_trans.
  - intros s0 k m. by eapply paced_quiet.
  - intros b n s0 ->. apply paced_query_step.
  - apply paced_eval_step.
  - intros key best s0 _. by eapply (paced_quiet _ _ []); [simpl; by rewrite app_nil_r|].
  - intros key best k h a b md s0 _ _. by eapply paced_quiet.
  - intros fen s0. by eapply (paced_quiet _ _ []); [simpl; by rewrite app_nil_r|].
  - intros file s0. by eapply paced_quiet.
Qed.

(** *** Numbering *)

Lemma numbered_same s s' :
  variation_counter (self s') = variation_counter (self s) ->
  all_variations (self s') = all_variations (self s) -> numbered s s'.
Proof.
  intros Hc Hv. split; [lia|]. exists []. rewrite app_nil_r.
  repeat split; [done|constructor|constructor].
Qed.

Lemma numbered_trans s1 s2 s3 : numbered s1 s2 -> numbered s2 s3 -> numbered s1 s3.
Proof.
  intros (Hc1 & n1 & Hv1 & Hs1 & Hb1) (Hc2 & n2 & Hv2 & Hs2 & Hb2).
  split; [lia|]. exists (n1 ++ n2). rewrite Hv2, Hv1, app_assoc.
  split; [done|]. split.
  - rewrite fmap_app. apply StronglySorted_app. repeat split; try done.
    intros x1 x2 (r1 & -> & Hr1)%list_elem_of_fmap (r2 & -> & Hr2)%list_elem_of_fmap.
    rewrite Forall_forall in Hb1, Hb2.
    specialize (Hb1 _ Hr1). specialize (Hb2 _ Hr2). lia.
  - apply Forall_app. split.
    + eapply Forall_impl; [exact Hb1|]. simpl. intros; lia.
    + eapply Forall_impl; [exact Hb2|]. simpl. intros; lia.
Qed.

(** X9. A call of [analyze_position_recursive] keeps the records it finds
    and appends new ones whose numbers strictly increase, each above the
    counter at the start and at most the counter at the end; the counter
    never goes down. *)
Theorem new_records_are_numbered_upwards fuel board move_history d s :
  let s' := snd (analyze_position_recursive C fuel board move_history d s) in
  variation_counter (self s) <= variation_counter (self s') /\
  exists new : list LineRecord,
    all_variations (self s') = all_variations (self s) ++ new /\
    StronglySorted Z.lt (map lr_number new) /\
    Forall (fun r => variation_counter (self s) < lr_number r <=
                     variation_counter (self s')) new.
Proof.
  apply (keeps_analyze numbered (fun _ => True)); try done.
  - intros s0. by apply numbered_same.
  - apply numbered_trans.
  - intros s0 k m. by apply numbered_same.
  - intros b n s0 _. rewrite get_lichess_moves_eq. cbv zeta.
    destruct (requests_get C (world s0) (board_fen C b) n) as [[|data] w];
      by apply numbered_same.
  - intros b k s0.
    destruct (get_best_response_returns b k s0) as (r & s' & evs & Heq & Hs & _).
    rewrite Heq. simpl. apply numbered_same; by rewrite Hs.
  - intros key best s0 _. split; [simpl; lia|]. exists []. rewrite app_nil_r.
    repeat split; [constructor|constructor].
  - intros key best k h a b md s0 _ _. split; [simpl; lia|].
    eexists [_]. split; [reflexivity|]. simpl. split.
    + repeat constructor.
    + repeat constructor; simpl; lia.
  - intros fen s0. by apply numbered_same.
  - intros file s0. by apply numbered_same.
Qed.

(** *** Depth of the recorded lines *)

Lemma analyze_deepens fuel board move_history d s :
  let s' := snd (analyze_position_recursive C fuel board move_history d s) in
  exists new : list LineRecord,
    all_variations (self s') = all_variations (self s) ++ new /\
    Forall (fun r => exists k : nat,
                lr_depth r = (length move_history + 2 * S k)%nat) new.
Proof.
  pose (n := length move_history).
  assert (Hsame : forall s1 s2 : Sys C,
            all_variations (self s2) = all_variations (self s1) -> deepens n s1 s2).
  { intros s1 s2 Hv. exists []. by rewrite app_nil_r. }
  apply (keeps_analyze (deepens n)
           (fun h => exists k : nat, length h = (n + 2 * k)%nat)).
  - intros h a b [k Hk]. exists (S k). rewrite !length_app, Hk. simpl. lia.
  - intros s0. by apply Hsame.
  - intros s1 s2 s3 (n1 & Hv1 & Hd1) (n2 & Hv2 & Hd2).
    exists (n1 ++ n2). rewrite Hv2, Hv1, app_assoc. split; [done|].
    by apply Forall_app.
  - intros s0 k m. by apply Hsame.
  - intros b k s0 _. rewrite get_lichess_moves_eq. cbv zeta.
    destruct (requests_get C (world s0) (board_fen C b) k) as [[|data] w];
      by apply Hsame.
  - intros b k s0.
    destruct (get_best_response_returns b k s0) as (r & s' & evs & Heq & Hs & _).
    rewrite Heq. simpl. apply Hsame. by rewrite Hs.
  - intros key best s0 _. by apply Hsame.
  - intros key best k h a b md s0 [j Hj] _.
    eexists [_]. split; [reflexivity|]. repeat constructor. simpl.
    exists j. rewrite !length_app, Hj. simpl. lia.
  - intros fen s0. by apply Hsame.
  - intros file s0. by apply Hsame.
  - exists 0%nat. unfold n. lia.
Qed.

(** X10. Every record that a call of [analyze_position_recursive] appends
    has as depth the length of the history the call started from plus a
    positive even number: lines grow by a candidate and its reply. *)
Theorem new_records_extend_the_history_by_pairs fuel board move_history d s :
  let s' := snd (analyze_position_recursive C fuel board move_history d s) in
  exists new : list LineRecord,
    all_variations (self s') = all_variations (self s) ++ new /\
    Forall (fun r => exists k : nat,
                lr_depth r = (length move_history + 2 * S k)%nat) new.
Proof. apply analyze_deepens. Qed.

(** *** The checkpoint after a normal return *)

(** X11. When [analyze_position_recursive] returns normally, the progress
    file holds the analyzer's state at that moment, provided the call did
    not stop at once on an explored position with a stale file. *)
Theorem checkpoint_is_current_after_return fuel board move_history d s s' :
  synced s \/ board_fen C board ∉ fully_explored_fens (self s) ->
  analyze_position_recursive C (S fuel) board move_history d s = (Ret tt, s') ->
  synced s'.
Proof.
  intros Hstart Hrun. cbn [analyze_position_recursive] in Hrun.
  rewrite bind_get_self in Hrun. case_decide as Hin.
  - injection Hrun as <-. destruct Hstart as [Hs|Hn]; [exact Hs|done].
  - rewrite bind_print in Hrun. unfold bind at 1 in Hrun.
    destruct (get_lichess_moves C board 5 _) as [[[|c moves]| |] s1];
      try discriminate.
    + injection Hrun as <-. unfold synced. simpl. by rewrite lookup_insert_eq.
    + rewrite bind_print in Hrun. unfold bind at 1 in Hrun.
      destruct (for_each C _ 0%nat (c :: moves) _) as [[[]| |] s2];
        try discriminate.
      injection Hrun as <-. unfold synced. simpl. by rewrite lookup_insert_eq.
Qed.

(** *** Every queried position ends up explored *)

Lemma not_counted_not_in p (evs : list event) e :
  count p evs = 0%nat -> e ∈ evs -> p e = false.
Proof.
  induction evs as [|x evs IH]; simpl; [by intros _ ?%elem_of_nil|].
  intros Hc [->|Hin]%elem_of_cons.
  - destruct (p x); [lia|done].
  - apply IH; [|done]. destruct (p x); lia.
Qed.

Lemma queries_settled_quiet s s' evs :
  log s' = log s ++ evs -> count is_http_get evs = 0%nat -> queries_settled s s'.
Proof.
  intros Hl Hc. exists evs. split; [done|]. intros fen n Hin.
  by apply (not_counted_not_in _ _ _ Hc) in Hin.
Qed.

Lemma queries_settled_trans s1 s2 s3 :
  queries_settled s1 s2 -> queries_settled s2 s3 -> extends s2 s3 ->
  queries_settled s1 s3.
Proof.
  intros (e1 & Hl1 & Hq1) (e2 & Hl2 & Hq2) Hext.
  exists (e1 ++ e2). rewrite Hl2, Hl1, app_assoc. split; [done|].
  intros fen n [Hin|Hin]%elem_of_app; [|by eapply Hq2].
  apply (ext_explored _ _ Hext). by eapply Hq1.
Qed.

Lemma query_names_the_position f (evs : list event) fen n :
  count is_http_get evs = 1%nat -> HttpGet f 5 ∈ evs ->
  HttpGet fen n ∈ evs -> fen = f.
Proof.
  induction evs as [|e evs IH]; simpl; [done|].
  intros Hc [Hf|Hf]%elem_of_cons [Hin|Hin]%elem_of_cons.
  - subst e. by injection Hin as -> _.
  - subst e. simpl in Hc. assert (Hz : count is_http_get evs = 0%nat) by lia.
    by apply (not_counted_not_in _ _ _ Hz) in Hin.
  - subst e. simpl in Hc. assert (Hz : count is_http_get evs = 0%nat) by lia.
    by apply (not_counted_not_in _ _ _ Hz) in Hf.
  - destruct (is_http_get e) eqn:He.
    + assert (Hz : count is_http_get evs = 0%nat) by lia.
      by apply (not_counted_not_in _ _ _ Hz) in Hf.
    + by apply IH.
Qed.

Lemma settle_call s s1 s2 s' f (qevs tail : list event) :
  log s1 = log s ++ qevs ->
  (forall fen n, HttpGet fen n ∈ qevs -> fen = f) ->
  queries_settled s1 s2 ->
  log s' = log s2 ++ tail ->
  count is_http_get tail = 0%nat ->
  fully_explored_fens (self s') = {[f]} ∪ fully_explored_fens (self s2) ->
  queries_settled s s'.
Proof.
  intros Hq Hname (evs & Hl & Hs) Ht Hc He.
  exists (qevs ++ evs ++ tail). rewrite Ht, Hl, Hq, <- !app_assoc. split; [done|].
  intros fen n. rewrite !elem_of_app, He, elem_of_union, elem_of_singleton.
  intros [Hin|[Hin|Hin]].
  - left. by eapply Hname.
  - right. by eapply Hs.
  - by apply (not_counted_not_in _ _ _ Hc) in Hin.
Qed.

Lemma analyze_settles_queries fuel :
  forall board move_history d s s',
    analyze_position_recursive C fuel board move_history d s = (Ret tt, s') ->
    queries_settled s s'.
Proof.
  induction fuel as [|fuel IH]; intros board move_history d s s' Hrun;
    [discriminate|].
  assert (Hbody : forall n i c st mid,
    process_candidate C (analyze_position_recursive C fuel) board move_history d
      (board_fen C board) n i c st = (Ret tt, mid) ->
    queries_settled st mid).
  { intros n i c st mid Hc.
    pose proof (process_candidate_iteration (analyze_position_recursive C fuel)
                  board move_history d (board_fen C board) n i c st) as Hit.
    rewrite Hc in Hit. inversion Hit; subst.
    - match goal with
      | Hr : analyze_position_recursive C fuel ?b ?h ?k ?pre = _ |- _ =>
        eapply (queries_settled_trans st pre mid);
          [by eapply queries_settled_quiet|exact (IH _ _ _ _ _ Hr)|];
          pose proof (analyze_position_recursive_monotone fuel b h k pre) as Hm;
          rewrite Hr in Hm; exact Hm
      end.
    - by eapply queries_settled_quiet.
    - match goal with
      | Hb : get_best_response C _ _ _ = _ |- _ =>
        apply get_best_response_step in Hb as (_ & _ & evs & Hlog & _ & Hget)
      end.
      eapply queries_settled_quiet.
      + simpl. rewrite Hlog. simpl. rewrite <- !app_assoc. reflexivity.
      + simpl. rewrite count_app, Hget. reflexivity.
    - match goal with
      | Hb : get_best_response C _ _ _ = _ |- _ =>
        apply get_best_response_step in Hb as (_ & _ & evs & Hlog & _ & Hget)
      end.
      match goal with
      | Hr : analyze_position_recursive C fuel ?b ?h ?k ?pre = _ |- _ =>
        eapply (queries_settled_trans st pre mid);
          [|exact (IH _ _ _ _ _ Hr)|];
          [|pose proof (analyze_position_recursive_monotone fuel b h k pre) as Hm;
            rewrite Hr in Hm; exact Hm]
      end.
      eapply queries_settled_quiet.
      + simpl. rewrite Hlog. simpl. rewrite <- !app_assoc. reflexivity.
      + simpl. rewrite !count_app, Hget. reflexivity. }
  assert (Hloop : forall n moves i st fin,
    for_each C (process_candidate C (analyze_position_recursive C fuel) board
                  move_history d (board_fen C board) n) i moves st = (Ret tt, fin) ->
    queries_settled st fin).
  { intros n moves. induction moves as [|c rest IHl]; intros i st fin Hl.
    - injection Hl as <-. by eapply (queries_settled_quiet _ _ []);
        [by rewrite app_nil_r|].
    - cbn [for_each] in Hl. unfold bind at 1 in Hl.
      destruct (process_candidate C _ board move_history d _ n i c st)
        as [[[]| |] mid] eqn:Hc; try discriminate.
      eapply queries_settled_trans; [by eapply Hbody|by eapply IHl|].
      pose proof (for_each_monotone
                    (process_candidate C (analyze_position_recursive C fuel) board
                       move_history d (board_fen C board) n) (S i) rest) as Hm.
      specialize (Hm (fun j x => process_candidate_monotone _ _ _ _ _ _ _ _
                        (analyze_position_recursive_monotone fuel)) mid).
      rewrite Hl in Hm. exact Hm. }
  cbn [analyze_position_recursive] in Hrun.
  rewrite bind_get_self in Hrun. case_decide as Hin.
  - injection Hrun as <-. by eapply queries_settled_quiet.
  - rewrite bind_print in Hrun. unfold bind at 1 in Hrun.
    rewrite get_lichess_moves_eq in Hrun. cbv zeta in Hrun. simpl world in Hrun.
    destruct (requests_get C (world s) (board_fen C board) 5) as [[|data] w].
    + injection Hrun as <-. eexists. split.
      * simpl. rewrite <- !app_assoc. reflexivity.
      * intros fen n Hq. simpl. apply elem_of_union. left. apply elem_of_singleton.
        eapply query_names_the_position; [| |exact Hq]; [reflexivity|].
        apply list_elem_of_further, list_elem_of_here.
    + destruct (popular_moves _ _ _) as [e|[|c moves]]; try discriminate.
      * injection Hrun as <-. eexists. split.
        -- simpl. rewrite <- !app_assoc. reflexivity.
        -- intros fen n Hq. simpl. apply elem_of_union. left.
           apply elem_of_singleton.
           eapply query_names_the_position; [| |exact Hq]; [reflexivity|].
           apply list_elem_of_further, list_elem_of_here.
      * rewrite bind_print in Hrun. unfold bind at 1 in Hrun.
        destruct (for_each C _ 0%nat (c :: moves) _) as [[[]| |] s2] eqn:Hl;
          try discriminate.
        injection Hrun as <-.
        match type of Hl with
        | for_each _ _ _ _ ?s1 = _ =>
          eapply (settle_call s s1 s2 _ (board_fen C board) [_; _; _; _] [_])
        end.
        -- simpl. by rewrite <- !app_assoc.
        -- intros fen n Hq.
           eapply query_names_the_position; [| |exact Hq]; [reflexivity|].
           apply list_elem_of_further, list_elem_of_here.
        -- by apply Hloop in Hl.
        -- reflexivity.
        -- reflexivity.
        -- reflexivity.
Qed.

(** X12. When [analyze_position_recursive] returns normally, every position
    it asked the explorer about during the call is in
    [fully_explored_fens]. *)
Theorem queried_positions_end_up_explored fuel board move_history d s s' :
  analyze_position_recursive C fuel board move_history d s = (Ret tt, s') ->
  exists evs : list event,
    log s' = log s ++ evs /\
    forall fen n, HttpGet fen n ∈ evs -> fen ∈ fully_explored_fens (self s').
Proof. apply analyze_settles_queries. Qed.
End Invariants.

(** ** The earlier traversal *)

Section PlainRun.
Context {C : Collaborators}.
Implicit Types (s : Sys C) (board : Board C) (move_history : History C).

Lemma plain_run_quiet s s' evs :
  self s' = self s -> disk s' = disk s -> log s' = log s ++ evs ->
  count is_write_file evs = 0%nat -> count is_sleep evs = 0%nat ->
  count is_json_dump evs = 0%nat ->
  plain_run s s'.
Proof.
  intros Hs Hd Hl Hw Hsl Hj. split; rewrite ?Hs; try done.
  exists [], evs. rewrite app_nil_r. simpl. repeat split; try done; lia.
Qed.

Ltac quiet :=
  eapply plain_run_quiet;
  [reflexivity|reflexivity|simpl; rewrite <- ?app_assoc; reflexivity
  |reflexivity..].

Lemma plain_run_refl s : plain_run s s.
Proof. by apply (plain_run_quiet s s []); rewrite ?app_nil_r. Qed.

Lemma plain_run_trans s1 s2 s3 : plain_run s1 s2 -> plain_run s2 s3 -> plain_run s1 s3.
Proof.
  intros [Hm1 Hc1 He1 Hd1 (n1 & l1 & Hv1 & Hl1 & Hw1 & Hp1 & Hn1 & Hs1 & Hj1)]
         [Hm2 Hc2 He2 Hd2 (n2 & l2 & Hv2 & Hl2 & Hw2 & Hp2 & Hn2 & Hs2 & Hj2)].
  split; try congruence.
  exists (n1 ++ n2), (l1 ++ l2).
  rewrite Hv2, Hv1, Hl2, Hl1, !app_assoc, length_app, !count_app.
  repeat split; lia.
Qed.

Lemma chesser2_get_lichess_moves_plain board top_n s :
  plain_run s (snd (Chesser2.get_lichess_moves C board top_n s)).
Proof.
  unfold Chesser2.get_lichess_moves, Chesser2.try_statement, try_except,
    fetch_moves, bind, call, print, emit, get_self, of_sum, ret, raise,
    append_log, set_world; simpl.
  destruct (requests_get C (world s) (board_fen C board) top_n) as [[|data] w];
    simpl.
  - quiet.
  - destruct (popular_moves _ _ _) as [e|moves] eqn:Hmoves; simpl.
    + rewrite (popular_moves_error _ _ _ _ Hmoves). simpl.
      quiet.
    + quiet.
Qed.

Lemma get_best_response_plain board depth s :
  plain_run s (snd (get_best_response C board depth s)).
Proof.
  rewrite get_best_response_eq.
  destruct (engine_play C (world s) board depth) as [[[mv|]|] w1]; cbv zeta;
    [destruct (push C board mv) as [temp|];
     [destruct (engine_analyse C w1 temp 20) as [[info|] w2];
      [destruct (board_san C board mv) as [san|]|]|]| |];
    quiet.
Qed.

Lemma get_best_response_log board depth s :
  exists (r : option (Response C)) s' (evs : list event),
    get_best_response C board depth s = (Ret r, s') /\
    self s' = self s /\ disk s' = disk s /\
    log s' = log s ++ EnginePlay (board_fen C board) depth :: evs /\
    count is_engine_play evs = 0%nat /\
    count is_sleep evs = 0%nat /\
    count is_write_file evs = 0%nat /\
    count is_json_dump evs = 0%nat.
Proof.
  rewrite get_best_response_eq.
  destruct (engine_play C (world s) board depth) as [[[mv|]|] w1]; cbv zeta;
    [destruct (push C board mv) as [temp|];
     [destruct (engine_analyse C w1 temp 20) as [[info|] w2];
      [destruct (board_san C board mv) as [san|]|]|]| |];
    eexists _, _, _; (split; [reflexivity|]); simpl;
    rewrite <- ?app_assoc; simpl;
    (split; [reflexivity|]); (split; [reflexivity|]); (split; [reflexivity|]);
    simpl; by repeat split.
Qed.

Lemma chesser2_process_candidate_plain recurse board move_history d n i move_data :
  (forall b h k, keeps plain_run (recurse b h k)) ->
  keeps plain_run (Chesser2.process_candidate C recurse board move_history d n i move_data).
Proof.
  intros Hrec s. unfold Chesser2.process_candidate.
  rewrite bind_print. unfold bind at 1. rewrite make_popular_move_eq.
  destruct (from_uci C (c_uci move_data)) as [move|]; [|quiet].
  destruct (push C board move) as [after_move|]; [|quiet].
  rewrite bind_print.
  destruct (get_best_response_log after_move 40
              (append_log [Print d FindingBestResponse]
                 (append_log [Print d (MoveHeader (i + 1) n (c_san move_data)
                                         (c_games move_data))] s)))
    as (r & s2 & evs & Heq & Hs & Hd & Hlog & Hplay & Hsl & Hw & Hj).
  rewrite (bind_eq _ _ _ _ _ Heq). simpl in Hs, Hd, Hlog.
  destruct r as [best|].
  2:{ eapply plain_run_quiet; simpl;
        [exact Hs|exact Hd|rewrite Hlog, <- !app_assoc; reflexivity|..];
        simpl; rewrite ?count_app, ?Hw, ?Hsl, ?Hj; reflexivity. }
  rewrite bind_print, bind_modify_self, bind_or_raise.
  destruct (from_uci C (r_uci best)) as [reply|].
  2:{ split; simpl; rewrite ?Hs; try done.
      exists [], ([Print d (MoveHeader (i + 1) n (c_san move_data) (c_games move_data));
                   Print d FindingBestResponse;
                   EnginePlay (board_fen C after_move) 40] ++ evs ++
                  [Print d (BestResponseIs (r_san best) (r_evaluation best))]).
      rewrite Hlog, app_nil_r, !count_app, Hw, Hsl, Hj. simpl.
      rewrite <- !app_assoc. simpl. repeat split; try done; lia. }
  rewrite bind_get_self, bind_emit, bind_print, bind_modify_self, bind_or_raise.
  assert (Hpre : forall pre : Sys C,
    self pre = set_all_variations
                 (all_variations (self s) ++
                    [line_record (variation_counter (self s) + 1)
                       ((move_history ++ [(move, c_san move_data)]) ++
                        [(reply, r_san best)]) best move_data])
                 (set_variation_counter (variation_counter (self s) + 1) (self s)) ->
    disk pre = disk s ->
    log pre = log s ++
      ([Print d (MoveHeader (i + 1) n (c_san move_data) (c_games move_data));
        Print d FindingBestResponse;
        EnginePlay (board_fen C after_move) 40] ++ evs ++
       [Print d (BestResponseIs (r_san best) (r_evaluation best));
        WriteFile (variation_file (variation_counter (self s) + 1))
          (generate_pgn C
             ((move_history ++ [(move, c_san move_data)]) ++ [(reply, r_san best)])
             (r_evaluation best)
             ("Variation " +:+ pretty (variation_counter (self s) + 1)));
        Print d (SavedAs (variation_file (variation_counter (self s) + 1)))]) ->
    plain_run s pre).
  { intros pre Hp Hpd Hpl. split; rewrite ?Hp; try done.
    eexists [_], _. split; [reflexivity|]. split; [exact Hpl|].
    rewrite !count_app, Hw, Hsl, Hj, Hplay. simpl. repeat split; lia. }
  destruct (push C after_move reply) as [after_reply|].
  - eapply plain_run_trans; [|apply Hrec].
    apply Hpre; simpl; rewrite ?Hs, ?Hd, ?Hlog; simpl; try done.
    by rewrite <- !app_assoc.
  - simpl. apply Hpre; simpl; rewrite ?Hs, ?Hd, ?Hlog; simpl; try done.
    by rewrite <- !app_assoc.
Qed.

(** X13. The traversal of chesser2.py keeps no state besides the counter and
    the records: cache, explored set and disk are untouched, no checkpoint
    is dumped and it never sleeps.  It writes one PGN file per record it
    appends, asks the engine for a move at least once per record, and the
    counter grows at least by the number of new records. *)
Theorem chesser2_traversal_never_sleeps_or_saves fuel board move_history d s :
  let s' := snd (Chesser2.analyze_position_recursive C fuel board move_history d s) in
  analyzed_positions (self s') = analyzed_positions (self s) /\
  fully_explored_fens (self s') = fully_explored_fens (self s) /\
  disk s' = disk s /\
  exists (new : list LineRecord) (evs : list event),
    all_variations (self s') = all_variations (self s) ++ new /\
    log s' = log s ++ evs /\
    count is_write_file evs = length new /\
    (length new <= count is_engine_play evs)%nat /\
    Z.of_nat (length new) <= variation_counter (self s') - variation_counter (self s) /\
    count is_sleep evs = 0%nat /\
    count is_json_dump evs = 0%nat.
Proof.
  cbv zeta.
  assert (Hall : keeps plain_run
                   (Chesser2.analyze_position_recursive C fuel board move_history d)).
  { revert board move_history d.
    induction fuel as [|fuel IH]; intros board move_history d; simpl.
    - intros s0. apply plain_run_refl.
    - apply keeps_bind; [apply plain_run_trans| |].
      { intros s0. quiet. }
      intros _. apply keeps_bind; [apply plain_run_trans| |].
      { intros s0. apply chesser2_get_lichess_moves_plain. }
      intros [[|c moves]|].
      + apply keeps_bind; [apply plain_run_trans|intros s0; apply plain_run_refl|].
        intros a s0. quiet.
      + apply keeps_bind; [apply plain_run_trans| |].
        { intros s0. quiet. }
        intros _. apply keeps_for_each;
          [apply plain_run_refl|apply plain_run_trans|].
        intros j x. apply chesser2_process_candidate_plain. apply IH.
      + apply keeps_bind; [apply plain_run_trans|intros s0; apply plain_run_refl|].
        intros a s0. quiet. }
  destruct (Hall s) as [_ Hc He Hd Hr]. done.
Qed.
End PlainRun.

(** ** Strings *)

Lemma string_app_cons (a : ascii) (t u : string) :
  String a t +:+ u = String a (t +:+ u).
Proof. reflexivity. Qed.

Lemma string_app_nil_l (t : string) : "" +:+ t = t.
Proof. reflexivity. Qed.

Ltac sapp := rewrite ?string_app_cons, ?string_app_nil_l.

Section Strings.
Implicit Types (t u v cur : string) (a : ascii).

Lemma string_app_assoc t u v : (t +:+ u) +:+ v = t +:+ u +:+ v.
Proof. induction t as [|a t IH]; sapp; [done|by rewrite IH]. Qed.

Lemma string_app_nil_r t : t +:+ "" = t.
Proof. induction t as [|a t IH]; sapp; [done|by rewrite IH]. Qed.

Lemma remove_dots_app t u : remove_dots (t +:+ u) = remove_dots t +:+ remove_dots u.
Proof.
  induction t as [|a t IH]; sapp; [done|]. cbn [remove_dots].
  destruct (Ascii.eqb a "."); sapp; by rewrite IH.
Qed.

Lemma remove_dots_id t : occurs "." t = false -> remove_dots t = t.
Proof.
  induction t as [|a t IH]; [done|]. cbn [occurs remove_dots].
  intros [Ha Ht]%orb_false_elim. rewrite Ascii.eqb_sym, Ha. by rewrite IH.
Qed.

Lemma remove_dots_spaces t : all_space t = true -> remove_dots t = t.
Proof.
  induction t as [|a t IH]; [done|]. cbn [all_space remove_dots].
  intros [Ha Ht]%andb_prop. destruct (Ascii.eqb a ".") eqn:Hdot.
  - apply Ascii.eqb_eq in Hdot. subst a. discriminate Ha.
  - by rewrite IH.
Qed.

(** A whitespace character ends the run being read. *)
Lemma split_from_app_space cur t a u :
  is_py_space a = true ->
  split_from cur (t +:+ String a u) = split_from cur t ++ split_from "" u.
Proof.
  intros Ha. revert cur. induction t as [|b t IH]; intros cur; sapp; simpl.
  - rewrite Ha. by destruct cur.
  - destruct (is_py_space b); [|apply IH].
    destruct cur; simpl; by rewrite IH.
Qed.

Lemma split_from_token cur t :
  has_space t = false -> cur +:+ t <> "" -> split_from cur t = [cur +:+ t].
Proof.
  revert cur. induction t as [|a t IH]; intros cur; simpl.
  - rewrite string_app_nil_r. by destruct cur.
  - intros [Ha Ht]%orb_false_elim Hne. rewrite Ha.
    rewrite IH.
    + by rewrite string_app_assoc.
    + done.
    + rewrite string_app_assoc. sapp. by destruct cur.
Qed.

Lemma split_leading l t : all_space l = true -> split_from "" (l +:+ t) = split_from "" t.
Proof.
  induction l as [|a l IH]; sapp; simpl; [done|].
  intros [Ha Hl]%andb_prop. rewrite Ha. by apply IH.
Qed.

Lemma split_trailing r cur t :
  all_space r = true -> split_from cur (t +:+ r) = split_from cur t.
Proof.
  intros Hr. revert cur. induction t as [|a t IH]; intros cur; sapp; simpl.
  - revert cur. induction r as [|b r IHr]; intros cur; simpl; [done|].
    apply andb_prop in Hr as [Hb Hr]. rewrite Hb.
    destruct cur; rewrite (IHr Hr); done.
  - destruct (is_py_space a); [|apply IH].
    destruct cur; by rewrite IH.
Qed.

Lemma lstrip_split t : exists l, t = l +:+ lstrip t /\ all_space l = true.
Proof.
  induction t as [|a t (l & Ht & Hl)]; simpl; [by exists ""|].
  destruct (is_py_space a) eqn:Ha.
  - exists (String a l). sapp. simpl. rewrite Ha, Hl. by rewrite <- Ht.
  - by exists "".
Qed.

Lemma rev_app_app t u v : String.rev_app (t +:+ u) v = String.rev_app u (String.rev_app t v).
Proof. revert v. induction t as [|a t IH]; intros v; sapp; simpl; [done|apply IH]. Qed.

Lemma rev_app_rev_app t u v :
  String.rev_app (String.rev_app t u) v = String.rev_app u (t +:+ v).
Proof.
  revert u v. induction t as [|a t IH]; intros u v; sapp; simpl; [done|].
  by rewrite IH.
Qed.

Lemma rev_app_eq t u : String.rev_app t u = String.rev t +:+ u.
Proof.
  unfold String.rev. revert u. induction t as [|a t IH]; intros u; simpl; [done|].
  rewrite IH, (IH (String a "")), string_app_assoc. by sapp.
Qed.

Lemma rev_involutive t : String.rev (String.rev t) = t.
Proof. unfold String.rev. rewrite rev_app_rev_app. simpl. apply string_app_nil_r. Qed.

Lemma all_space_app t u : all_space (t +:+ u) = all_space t && all_space u.
Proof. induction t as [|a t IH]; sapp; simpl; [done|]. by rewrite IH, andb_assoc. Qed.

Lemma all_space_rev t : all_space t = true -> all_space (String.rev t) = true.
Proof.
  unfold String.rev.
  assert (H : forall u, all_space t = true -> all_space u = true ->
                        all_space (String.rev_app t u) = true).
  { induction t as [|a t IH]; intros u; simpl; [done|].
    intros [Ha Ht]%andb_prop Hu. apply IH; [done|]. simpl. by rewrite Ha, Hu. }
  intros Ht. by apply H.
Qed.

(** [strip] removes whitespace at both ends and nothing else. *)
Lemma strip_split t :
  exists l r, t = l +:+ strip t +:+ r /\ all_space l = true /\ all_space r = true.
Proof.
  unfold strip.
  destruct (lstrip_split t) as (l & Ht & Hl).
  destruct (lstrip_split (String.rev (lstrip t))) as (r & Hr & Hsp).
  exists l, (String.rev r). split; [|split; [done|by apply all_space_rev]].
  rewrite Ht at 1. f_equal.
  rewrite <- (rev_involutive (lstrip t)) at 1. rewrite Hr at 1.
  unfold String.rev at 1. rewrite rev_app_app, !rev_app_eq.
  by rewrite string_app_nil_r.
Qed.

Lemma split_remove_dots_strip t :
  split (remove_dots (strip t)) = split (remove_dots t).
Proof.
  destruct (strip_split t) as (l & r & Ht & Hl & Hr).
  rewrite Ht at 2. rewrite !remove_dots_app.
  rewrite (remove_dots_spaces l Hl), (remove_dots_spaces r Hr).
  unfold split. by rewrite split_leading, split_trailing.
Qed.

Lemma digit_is_no_space a : is_ascii_digit a = true -> is_py_space a = false.
Proof.
  unfold is_ascii_digit, is_py_space. cbv zeta.
  generalize (nat_of_ascii a). intros n.
  intros [H1 H2]%andb_prop. apply Nat.leb_le in H1, H2.
  rewrite (proj2 (Nat.leb_gt n 13)) by lia.
  rewrite (proj2 (Nat.leb_gt n 32)) by lia.
  by rewrite !andb_false_r.
Qed.

Lemma digit_is_no_dot a : is_ascii_digit a = true -> Ascii.eqb "." a = false.
Proof.
  intros Ha. destruct (Ascii.eqb "." a) eqn:Hd; [|done].
  apply Ascii.eqb_eq in Hd. subst a. discriminate Ha.
Qed.

Lemma all_digits_plain t :
  all_digits t = true -> has_space t = false /\ occurs "." t = false.
Proof.
  induction t as [|a t IH]; [done|]. cbn [all_digits has_space occurs].
  intros [Ha Ht]%andb_prop. destruct (IH Ht) as [-> ->].
  by rewrite (digit_is_no_space a Ha), (digit_is_no_dot a Ha).
Qed.

Lemma pretty_N_char_digit x : is_ascii_digit (pretty_N_char x) = true.
Proof. unfold pretty_N_char. by repeat case_match. Qed.

Lemma pretty_N_go_digits x t :
  all_digits t = true -> all_digits (pretty_N_go x t) = true.
Proof.
  revert t. induction (N.lt_wf_0 x) as [x _ IH]; intros t Ht.
  destruct (decide (x = 0)%N) as [->|Hx]; [by rewrite pretty_N_go_0|].
  rewrite pretty_N_go_step by lia. apply IH.
  - apply N.div_lt; lia.
  - simpl. by rewrite pretty_N_char_digit, Ht.
Qed.

Lemma pretty_N_go_nonempty x t : t <> "" -> pretty_N_go x t <> "".
Proof.
  revert t. induction (N.lt_wf_0 x) as [x _ IH]; intros t Ht.
  destruct (decide (x = 0)%N) as [->|Hx]; [by rewrite pretty_N_go_0|].
  rewrite pretty_N_go_step by lia. apply IH; [apply N.div_lt; lia|done].
Qed.

(** A move number is printed as a nonempty run of digits. *)
Lemma pretty_move_number (n : Z) :
  0 < n -> all_digits (pretty n) = true /\ pretty n <> "".
Proof.
  destruct n as [|p|p]; try lia. intros _.
  unfold pretty, pretty_Z, pretty, pretty_positive, pretty, pretty_N.
  rewrite decide_False by done. split.
  - by apply pretty_N_go_digits.
  - rewrite pretty_N_go_step by lia. by apply pretty_N_go_nonempty.
Qed.

Lemma san_tokens_app_space t u :
  san_tokens (t +:+ String " " u) = san_tokens t ++ san_tokens u.
Proof.
  unfold san_tokens, split. rewrite remove_dots_app. simpl.
  rewrite split_from_app_space by done. apply List.filter_app.
Qed.

Lemma san_tokens_number (n : Z) : 0 < n -> san_tokens (pretty n +:+ ".") = [].
Proof.
  intros Hn. destruct (pretty_move_number n Hn) as [Hd Hne].
  destruct (all_digits_plain _ Hd) as [Hsp Hdot].
  unfold san_tokens, split. rewrite remove_dots_app, (remove_dots_id _ Hdot). simpl.
  assert (Hnum : isdigit (pretty n) = true).
  { unfold isdigit. by destruct (pretty n). }
  rewrite string_app_nil_r, split_from_token by done. sapp. simpl.
  by rewrite Hnum.
Qed.

Lemma san_tokens_clean san : clean_san san -> san_tokens san = [san].
Proof.
  intros (_ & Hne & Hsp & Hdot & Hnum).
  unfold san_tokens, split. rewrite (remove_dots_id _ Hdot).
  rewrite split_from_token by done. sapp. simpl. by rewrite Hnum.
Qed.

Lemma san_tokens_empty : san_tokens "" = [].
Proof. reflexivity. Qed.

End Strings.

(** ** Path labels *)

Section Labels.
Context {MoveT : Type}.
Implicit Types (moves : list (MoveT * string)).

Lemma move_path_acc moves : forall i n path,
  move_path i n moves path = path +:+ move_path i n moves "".
Proof.
  induction moves as [|[m san] rest IH]; intros i n path; simpl.
  - by rewrite string_app_nil_r.
  - destruct (Nat.even i).
    + rewrite IH, (IH _ _ ("" +:+ _)). simpl. by rewrite !string_app_assoc.
    + rewrite IH, (IH _ _ ("" +:+ _)). simpl. by rewrite !string_app_assoc.
Qed.

Lemma san_tokens_move_path moves : forall i n,
  0 < n -> Forall clean_san (map snd moves) ->
  san_tokens (move_path i n moves "") = map snd moves.
Proof.
  induction moves as [|[m san] rest IH]; intros i n Hn Hclean; simpl; [done|].
  apply Forall_cons in Hclean as [Hsan Hrest]. simpl in Hsan.
  destruct (Nat.even i).
  - rewrite move_path_acc.
    repeat (progress (rewrite ?string_app_assoc, ?string_app_cons,
                        ?string_app_nil_l)).
    replace (pretty n +:+ String "." (String " "
               (san +:+ String " " (move_path (S i) (n + 1) rest ""))))
      with ((pretty n +:+ ".") +:+ String " "
               (san +:+ String " " (move_path (S i) (n + 1) rest "")))
      by (by rewrite string_app_assoc).
    rewrite !san_tokens_app_space, san_tokens_number, san_tokens_clean by done.
    rewrite IH by (done || lia). done.
  - rewrite move_path_acc.
    repeat (progress (rewrite ?string_app_assoc, ?string_app_cons,
                        ?string_app_nil_l)).
    rewrite !san_tokens_app_space, san_tokens_clean by done.
    rewrite IH by done. done.
Qed.

Lemma san_tokens_get_move_path_string moves :
  Forall clean_san (map snd moves) ->
  san_tokens (get_move_path_string moves) = map snd moves.
Proof.
  intros Hclean. unfold get_move_path_string, san_tokens.
  rewrite split_remove_dots_strip.
  by apply (san_tokens_move_path moves 0 1).
Qed.

(** X14. The label that [get_move_path_string] gives a line reads back as
    the line's SANs when it is cut the way the fallback of
    [analyze_position] cuts its input (dots removed, split at whitespace,
    numbers dropped), for SANs that are plain tokens. *)
Theorem path_label_reads_back_as_its_sans moves :
  Forall clean_san (map snd moves) ->
  san_tokens (get_move_path_string moves) = map snd moves.
Proof. apply san_tokens_get_move_path_string. Qed.
End Labels.

(** ** The opening line *)

Section OpeningLine.
Context {C : Collaborators} (P : PgnLibrary C).
Implicit Types (board : Board C) (move_history line : History C).

Lemma parse_tokens_skips_numbers tokens : forall board move_history,
  parse_tokens C P board move_history tokens =
  parse_tokens C P board move_history
    (List.filter (fun token => negb (isdigit token)) tokens).
Proof.
  induction tokens as [|token rest IH]; intros board move_history; simpl; [done|].
  destruct (isdigit token) eqn:Hd; simpl; [apply IH|]. rewrite Hd.
  destruct (parse_san P board token) as [move|]; [|by rewrite IH].
  destruct (push C board move) as [board'|]; by rewrite IH.
Qed.

Lemma parse_tokens_spelled line : forall board board' move_history,
  spelled P board line board' ->
  Forall (fun san => isdigit san = false) (map snd line) ->
  parse_tokens C P board move_history (map snd line) =
    (board', move_history ++ line, []).
Proof.
  induction line as [|[move san] rest IH]; intros board board' move_history Hsp Hnum.
  - inversion Hsp; subst. simpl. by rewrite app_nil_r.
  - inversion Hsp as [|? ? ? mid ? Hparse Hpush Hrest]; subst. simpl in *.
    apply Forall_cons in Hnum as [Hsan Hnum]. rewrite Hsan, Hparse, Hpush.
    rewrite (IH _ _ _ Hrest Hnum). by rewrite <- app_assoc.
Qed.

(** X15. The manual parse of [analyze_position] undoes
    [get_move_path_string]: from the label of a line whose SANs each parse,
    on the board reached so far, as the move they are paired with, it
    rebuilds the line and the board after it, and reports no token. *)
Theorem manual_parse_reads_back_a_path_label line board' :
  spelled P (new_board P) line board' ->
  Forall clean_san (map snd line) ->
  parse_manually C P (get_move_path_string line) = (board', line, []).
Proof.
  intros Hsp Hclean. unfold parse_manually.
  rewrite parse_tokens_skips_numbers.
  change (List.filter _ (split (remove_dots ?t))) with (san_tokens t).
  rewrite san_tokens_get_move_path_string by done.
  rewrite (parse_tokens_spelled line _ board' []); [done|done|].
  eapply Forall_impl; [exact Hclean|]. by intros san (_ & _ & _ & _ & Hnum).
Qed.

Lemma replay_reached moves : forall board board' move_history history',
  replay C board move_history moves = Some (board', history') ->
  map fst history' = map fst move_history ++ moves /\
  reached C board moves = Some board'.
Proof.
  induction moves as [|move rest IH]; intros board board' move_history history';
    simpl.
  - intros [= <- <-]. by rewrite app_nil_r.
  - destruct (board_san C board move) as [san|]; [|done].
    destruct (push C board move) as [mid|]; [|done].
    intros Hrest. destruct (IH _ _ _ _ Hrest) as [Hmap Hreach].
    split; [|done]. rewrite Hmap, fmap_app. simpl. by rewrite <- app_assoc.
Qed.

Lemma parse_tokens_reached tokens : forall board board' move_history history',
  parse_tokens C P board move_history tokens = (board', history', []) ->
  exists moves,
    map fst history' = map fst move_history ++ moves /\
    reached C board moves = Some board'.
Proof.
  induction tokens as [|token rest IH]; intros board board' move_history history';
    simpl.
  - intros [= <- <-]. exists []. by rewrite app_nil_r.
  - destruct (isdigit token); [apply IH|].
    destruct (parse_san P board token) as [move|].
    + destruct (push C board move) as [mid|] eqn:Hpush.
      * intros Hrest. destruct (IH _ _ _ _ Hrest) as (moves & Hmap & Hreach).
        exists (move :: moves). simpl. rewrite Hpush. split; [|done].
        rewrite Hmap, fmap_app. simpl. by rewrite <- app_assoc.
      * by destruct (parse_tokens C P board _ rest) as [[? ?] ?].
    + by destruct (parse_tokens C P board move_history rest) as [[? ?] ?].
Qed.

(** X16. When [analyze_position] has parsed the opening without reporting a
    token, by either of its two ways, the board it hands to the traversal is
    the new board with the moves of the history pushed on it in order. *)
Theorem parsed_board_is_the_position_after_the_history pgn_moves board
    move_history :
  parse_opening C P pgn_moves = (board, move_history, []) ->
  reached C (new_board P) (map fst move_history) = Some board.
Proof.
  unfold parse_opening, parse_manually.
  assert (Hmanual :
    parse_tokens C P (new_board P) [] (split (remove_dots pgn_moves))
      = (board, move_history, []) ->
    reached C (new_board P) (map fst move_history) = Some board).
  { intros (moves & Hmap & Hreach)%parse_tokens_reached. by rewrite Hmap. }
  destruct (read_game P pgn_moves) as [[moves|]|]; [|done|done].
  destruct (replay C (new_board P) [] moves) as [[b h]|] eqn:Hreplay; [|done].
  intros [= <- <-]. apply replay_reached in Hreplay as [Hmap Hreach].
  by rewrite Hmap.
Qed.
End OpeningLine.

(** ** The tree view *)

Lemma depth_le_max_depth (variations : list LineRecord) r :
  r ∈ variations -> (lr_depth r <= max_depth variations)%nat.
Proof.
  unfold max_depth. induction variations as [|v rest IH]; simpl.
  - by intros ?%elem_of_nil.
  - intros [->|Hin]%elem_of_cons; [lia|]. specialize (IH Hin). lia.
Qed.

Lemma elem_of_even_depths m d :
  d ∈ even_depths m <-> Nat.even d = true /\ (2 <= d <= m)%nat.
Proof.
  unfold even_depths. rewrite list_elem_of_In, List.in_map_iff. split.
  - intros (k & <- & [_ Hk]%List.in_seq). split.
    + rewrite Nat.even_mul. done.
    + pose proof (Nat.Div0.mul_div_le m 2). lia.
  - intros [Heven [Hlo Hhi]]. apply Nat.even_spec in Heven as [k ->].
    exists (k - 1)%nat. split; [lia|]. apply List.in_seq.
    assert (k <= m / 2)%nat; [|lia]. apply Nat.div_le_lower_bound; lia.
Qed.

Lemma elem_of_tree_groups (variations : list LineRecord) r :
  (exists depth group, (depth, group) ∈ tree_groups variations /\ r ∈ group) <->
  r ∈ variations /\ Nat.even (lr_depth r) = true /\ (2 <= lr_depth r)%nat.
Proof.
  unfold tree_groups. split.
  - intros (depth & group & Hg & Hr).
    apply list_elem_of_In, List.filter_In in Hg as [Hg _].
    apply List.in_map_iff in Hg as (d & [= <- <-] & Hd).
    apply list_elem_of_In, List.filter_In in Hr as [Hr Heq].
    apply Nat.eqb_eq in Heq. apply list_elem_of_In, elem_of_even_depths in Hd.
    rewrite Heq. split; [by apply list_elem_of_In|]. split; [tauto|lia].
  - intros (Hr & Heven & Hlo).
    exists (lr_depth r),
      (List.filter (fun v => Nat.eqb (lr_depth v) (lr_depth r)) variations).
    assert (Hin : r ∈ List.filter (fun v => Nat.eqb (lr_depth v) (lr_depth r))
                        variations).
    { apply list_elem_of_In, List.filter_In. split; [by apply list_elem_of_In|].
      apply Nat.eqb_refl. }
    split; [|done].
    apply list_elem_of_In, List.filter_In. split.
    + apply List.in_map_iff. exists (lr_depth r). split; [done|].
      apply list_elem_of_In, elem_of_even_depths. split; [done|].
      split; [done|by apply depth_le_max_depth].
    + simpl. destruct (List.filter _ variations); [by apply elem_of_nil in Hin|done].
Qed.

(** X17. The tree view that [main] writes lists a record, under its depth,
    exactly when the record's depth is even and at least 2; a record of odd
    depth appears nowhere in it. *)
Theorem tree_view_lists_the_even_depths (variations : list LineRecord) r :
  (exists depth group, (depth, group) ∈ tree_groups variations /\ r ∈ group) <->
  r ∈ variations /\ Nat.even (lr_depth r) = true /\ (2 <= lr_depth r)%nat.
Proof. apply elem_of_tree_groups. Qed.

Lemma tree_groups_of_odd_depths (variations : list LineRecord) :
  Forall (fun r => Nat.odd (lr_depth r) = true) variations ->
  tree_groups variations = [].
Proof.
  intros Hodd. destruct (tree_groups variations) as [|[depth group] rest] eqn:Hg;
    [done|].
  assert (Hin : (depth, group) ∈ tree_groups variations)
    by (rewrite Hg; apply list_elem_of_here).
  assert (Hne : exists r, r ∈ group).
  { unfold tree_groups in Hin.
    apply list_elem_of_In, List.filter_In in Hin as [_ Hlen]. simpl in Hlen.
    destruct group as [|r g]; [done|]. exists r. apply list_elem_of_here. }
  destruct Hne as [r Hr].
  destruct (proj1 (elem_of_tree_groups variations r)) as (Hv & He & _).
  { by exists depth, group. }
  rewrite Forall_forall in Hodd. specialize (Hodd r Hv).
  rewrite <- Nat.negb_even, He in Hodd. done.
Qed.

Section TreeOfARun.
Context {C : Collaborators} (P : PgnLibrary C).

Lemma tree_groups_after_odd_history fuel (board : Board C)
    (move_history : History C) d (s : Sys C) :
  Nat.odd (length move_history) = true ->
  Forall (fun r => Nat.odd (lr_depth r) = true) (all_variations (self s)) ->
  tree_groups
    (all_variations
       (self (snd (analyze_position_recursive C fuel board move_history d s)))) = [].
Proof.
  intros Hodd Hold.
  destruct (analyze_deepens fuel board move_history d s) as (new & -> & Hnew).
  apply tree_groups_of_odd_depths, Forall_app. split; [done|].
  eapply Forall_impl; [exact Hnew|]. cbv beta. intros r [k ->].
  rewrite Nat.odd_add, Hodd, Nat.odd_mul. done.
Qed.

(** X18. A traversal that starts from a history of odd length, with no
    record of even depth present, leaves only records of odd depth, so the
    tree view written from them has no group. *)
Theorem odd_opening_gives_an_empty_tree fuel (board : Board C)
    (move_history : History C) d (s : Sys C) :
  Nat.odd (length move_history) = true ->
  Forall (fun r => Nat.odd (lr_depth r) = true) (all_variations (self s)) ->
  tree_groups
    (all_variations
       (self (snd (analyze_position_recursive C fuel board move_history d s)))) = [].
Proof. apply tree_groups_after_odd_history. Qed.

End TreeOfARun.

(** * Concrete runs of the further properties *)

(** X1, witness: the explorer's answer at the starting position. *)
Lemma get_lichess_moves_returns_the_popular_prefix_witness :
  let s := Scenario.fresh [Scenario.opening] in
  let s' := snd (get_lichess_moves Scenario.world [] 5 s) in
  get_lichess_moves Scenario.world [] 5 s = (Ret Scenario.candidates, s') /\
  Forall (fun c => 500 <= c_games c /\
                   c_games c = c_white_wins c + c_draws c + c_black_wins c)
         Scenario.candidates /\
  (length Scenario.candidates <= 5)%nat.
Proof.
  cbv zeta.
  assert (Hrun : get_lichess_moves Scenario.world [] 5
                   (Scenario.fresh [Scenario.opening])
                 = (Ret Scenario.candidates,
                    snd (get_lichess_moves Scenario.world [] 5
                           (Scenario.fresh [Scenario.opening]))))
    by (vm_compute; reflexivity).
  split; [exact Hrun|].
  destruct (get_lichess_moves_returns_the_popular_prefix
              (C := Scenario.world) _ _ _ _ _ Hrun)
    as (_ & _ & _ & _ & Hgames & Hlen & _).
  split; [exact Hgames|]. apply Hlen. lia.
Defined.

(** X7, witness: the key of 1. e4 at the starting position. *)
Lemma cache_key_injective_witness :
  let fen := "rnbqkbnr/pppppppp/8/8/8/8/PPPPPPPP/RNBQKBNR w KQkq - 0 1"%string in
  occurs "|" fen = false /\
  _cache_key fen "e2e4" = _cache_key fen "e2e4" /\
  (fen = fen /\ "e2e4"%string = "e2e4"%string).
Proof.
  cbv zeta. split; [reflexivity|]. split; [reflexivity|].
  apply cache_key_injective; reflexivity.
Defined.

(** X11, witness: the first run from the starting position. *)
Lemma checkpoint_is_current_after_return_witness :
  (board_fen Scenario.world [] ∉
     fully_explored_fens (self (Scenario.fresh [Scenario.opening]))) /\
  analyze_position_recursive Scenario.world 5 [] [] 0
    (Scenario.fresh [Scenario.opening]) = (Ret tt, Scenario.after_first_run) /\
  synced Scenario.after_first_run.
Proof.
  assert (Hnot : board_fen Scenario.world [] ∉
            fully_explored_fens (self (Scenario.fresh [Scenario.opening])))
    by (vm_compute; discriminate).
  assert (Hrun : analyze_position_recursive Scenario.world 5 [] [] 0
                   (Scenario.fresh [Scenario.opening])
                 = (Ret tt, Scenario.after_first_run))
    by (vm_compute; reflexivity).
  split; [exact Hnot|]. split; [exact Hrun|].
  exact (checkpoint_is_current_after_return (C := Scenario.world)
           4 [] [] 0%nat _ _ (or_intror Hnot) Hrun).
Defined.

(** X12, witness: the first run from the starting position. *)
Lemma queried_positions_end_up_explored_witness :
  analyze_position_recursive Scenario.world 5 [] [] 0
    (Scenario.fresh [Scenario.opening]) = (Ret tt, Scenario.after_first_run) /\
  exists evs : list event,
    log Scenario.after_first_run = log (Scenario.fresh [Scenario.opening]) ++ evs /\
    forall fen n, HttpGet fen n ∈ evs ->
      fen ∈ fully_explored_fens (self Scenario.after_first_run).
Proof.
  assert (Hrun : analyze_position_recursive Scenario.world 5 [] [] 0
                   (Scenario.fresh [Scenario.opening])
                 = (Ret tt, Scenario.after_first_run))
    by (vm_compute; reflexivity).
  split; [exact Hrun|].
  exact (queried_positions_end_up_explored (C := Scenario.world)
           5 [] [] 0%nat _ _ Hrun).
Defined.

(** X14, witness: a line of three plies. *)
Lemma path_label_reads_back_as_its_sans_witness :
  Forall clean_san (map snd OpeningScenario.line) /\
  san_tokens (get_move_path_string OpeningScenario.line)
    = map snd OpeningScenario.line.
Proof.
  assert (Hclean : Forall clean_san (map snd OpeningScenario.line))
    by (simpl; repeat (constructor;
                       [repeat split; (discriminate || reflexivity)|]);
        constructor).
  split; [exact Hclean|].
  exact (path_label_reads_back_as_its_sans OpeningScenario.line Hclean).
Defined.

(** X15, witness: the label of a line of three plies. *)
Lemma manual_parse_reads_back_a_path_label_witness :
  spelled OpeningScenario.library (new_board OpeningScenario.library)
    OpeningScenario.line OpeningScenario.board_after_line /\
  Forall clean_san (map snd OpeningScenario.line) /\
  parse_manually Scenario.world OpeningScenario.library "1. e2e4 e7e5 2. g1f3"
    = (OpeningScenario.board_after_line, OpeningScenario.line, []).
Proof.
  assert (Hspelled : spelled OpeningScenario.library
                       (new_board OpeningScenario.library)
                       OpeningScenario.line OpeningScenario.board_after_line)
    by (unfold OpeningScenario.line, OpeningScenario.board_after_line;
        repeat (eapply (spelled_cons (C := Scenario.world)
                          OpeningScenario.library);
                [reflexivity|reflexivity|]);
        apply (spelled_nil (C := Scenario.world) OpeningScenario.library)).
  assert (Hclean : Forall clean_san (map snd OpeningScenario.line))
    by (simpl; repeat (constructor;
                       [repeat split; (discriminate || reflexivity)|]);
        constructor).
  split; [exact Hspelled|]. split; [exact Hclean|].
  exact (manual_parse_reads_back_a_path_label OpeningScenario.library
           OpeningScenario.line OpeningScenario.board_after_line Hspelled Hclean).
Defined.

(** X16, witness: an opening of three plies, parsed by hand. *)
Lemma parsed_board_is_the_position_after_the_history_witness :
  parse_opening Scenario.world OpeningScenario.library "1. e2e4 e7e5 2. g1f3"
    = (OpeningScenario.board_after_line, OpeningScenario.line, []) /\
  reached Scenario.world (new_board OpeningScenario.library)
    (map fst OpeningScenario.line) = Some OpeningScenario.board_after_line.
Proof.
  assert (Hparse : parse_opening Scenario.world OpeningScenario.library
                     "1. e2e4 e7e5 2. g1f3"
                   = (OpeningScenario.board_after_line, OpeningScenario.line, []))
    by (vm_compute; reflexivity).
  split; [exact Hparse|].
  exact (parsed_board_is_the_position_after_the_history OpeningScenario.library
           _ _ _ Hparse).
Defined.

(** X18, witness: a first run whose history has one ply; it appends two
    records, both of depth 3. *)
Lemma odd_opening_gives_an_empty_tree_witness :
  let s := Scenario.fresh [Scenario.opening] in
  let s' := snd (analyze_position_recursive Scenario.world 5 []
                   OpeningScenario.one_ply 0 s) in
  Nat.odd (length OpeningScenario.one_ply) = true /\
  Forall (fun r => Nat.odd (lr_depth r) = true) (all_variations (self s)) /\
  map lr_depth (all_variations (self s')) = [3%nat; 3%nat] /\
  tree_groups (all_variations (self s')) = [].
Proof.
  cbv zeta. split; [reflexivity|]. split; [constructor|].
  split; [vm_compute; reflexivity|].
  apply (odd_opening_gives_an_empty_tree (C := Scenario.world));
    [reflexivity|constructor].
Defined.

